(** * Selection save / restore of the rich-text editor

    A shallow embedding of [SelectionManager.exportSelection],
    [SelectionManager.importSelection] and [SelectionManager.selectRange]
    (src/dom/Selection.ts) together with the part of the DOM that these
    methods talk to: a node tree, ranges made of two boundary points, and
    the live selection of the document. *)

From Stdlib Require Import List String Ascii ZArith Arith Bool Lia.
Import ListNotations.

Local Open Scope list_scope.
Set Warnings "-register-all".

(** ** Completion records: a call either returns or throws *)

Inductive Exn : Type :=
| IndexSizeError
| InvalidStateError.

Inductive Completion (A : Type) : Type :=
| Normal (a : A)
| Throw (e : Exn).

Arguments Normal {A} a.
Arguments Throw {A} e.

Definition bind {A B : Type} (c : Completion A) (k : A -> Completion B) : Completion B :=
  match c with
  | Normal a => k a
  | Throw e => Throw e
  end.

Notation "x <- c ;; k" := (bind c (fun x => k))
  (at level 61, c at next level, right associativity).

(** ** The node tree *)

Module DOM.

Inductive Node : Type :=
| Element (tagName : string) (childNodes : list Node)
| Text (data : string)
| Comment (data : string).

(** A node of the root's subtree is identified by the child indices that
    lead to it from the root; a node reference carries that identity and
    the node itself.  [DocumentNode] is the document that owns the root. *)
Definition Path : Type := list nat.

Inductive NodeRef : Type :=
| DocumentNode
| Ref (path : Path) (node : Node).

Definition ELEMENT_NODE : Z := 1.
Definition TEXT_NODE : Z := 3.
Definition COMMENT_NODE : Z := 8.
Definition DOCUMENT_NODE : Z := 9.

Definition nodeType (n : NodeRef) : Z :=
  match n with
  | DocumentNode => DOCUMENT_NODE
  | Ref _ (Element _ _) => ELEMENT_NODE
  | Ref _ (Text _) => TEXT_NODE
  | Ref _ (Comment _) => COMMENT_NODE
  end.

Fixpoint indexFrom (p : Path) (i : nat) (cs : list Node) : list NodeRef :=
  match cs with
  | [] => []
  | c :: cs' => Ref (p ++ [i]) c :: indexFrom p (S i) cs'
  end.

(** [node.childNodes]: the children in document order. *)
Definition childNodes (n : NodeRef) : list NodeRef :=
  match n with
  | Ref p (Element _ cs) => indexFrom p 0 cs
  | _ => []
  end.

(** The concatenated data of the [Text] descendants, in document order. *)
Fixpoint descendantText (n : Node) : string :=
  match n with
  | Element _ cs =>
      (fix go (l : list Node) : string :=
         match l with
         | [] => EmptyString
         | c :: l' => (descendantText c ++ go l')%string
         end) cs
  | Text s => s
  | Comment _ => EmptyString
  end.

Fixpoint descendantTextList (l : list Node) : string :=
  match l with
  | [] => EmptyString
  | c :: l' => (descendantText c ++ descendantTextList l')%string
  end.

(** [node.textContent]: [null] on a document, the data of a character-data
    node, the descendant text of an element. *)
Definition textContent (n : NodeRef) : option string :=
  match n with
  | DocumentNode => None
  | Ref _ (Element _ cs) => Some (descendantTextList cs)
  | Ref _ (Text s) => Some s
  | Ref _ (Comment s) => Some s
  end.

(** The length of a node in the sense of the Range interface.  The
    children of the document are not modelled: the only boundary point
    on the document that is ever used is its offset 0. *)
Definition nodeLength (n : NodeRef) : nat :=
  match n with
  | DocumentNode => 0
  | Ref _ (Element _ cs) => List.length cs
  | Ref _ (Text s) => String.length s
  | Ref _ (Comment s) => String.length s
  end.

(** ** Ranges *)

Record Range : Type := mkRange {
  startContainer : NodeRef;
  startOffset : nat;
  endContainer : NodeRef;
  endOffset : nat
}.

Fixpoint lexCompare (a b : list nat) : comparison :=
  match a, b with
  | [], [] => Eq
  | [], _ :: _ => Lt
  | _ :: _, [] => Gt
  | x :: a', y :: b' =>
      match Nat.compare x y with
      | Eq => lexCompare a' b'
      | c => c
      end
  end.

(** A boundary point (node, offset) read as the path of the node followed
    by the offset: the point lies before the child with that index and
    after the children with smaller ones, so the order of two boundary
    points is the lexicographic order of these lists.  (document, 0)
    precedes every point of the root's subtree. *)
Definition pointKey (n : NodeRef) (off : nat) : list nat :=
  match n with
  | DocumentNode => []
  | Ref p _ => p ++ [off]
  end.

Definition comparePoints (n1 : NodeRef) (o1 : nat) (n2 : NodeRef) (o2 : nat) : comparison :=
  lexCompare (pointKey n1 o1) (pointKey n2 o2).

Fixpoint eqPath (p q : Path) : bool :=
  match p, q with
  | [], [] => true
  | i :: p', j :: q' => Nat.eqb i j && eqPath p' q'
  | _, _ => false
  end.

Definition sameNode (a b : NodeRef) : bool :=
  match a, b with
  | DocumentNode, DocumentNode => true
  | Ref p _, Ref q _ => eqPath p q
  | _, _ => false
  end.

(** [range.collapsed] *)
Definition collapsed (r : Range) : bool :=
  sameNode (startContainer r) (endContainer r) && Nat.eqb (startOffset r) (endOffset r).

(** The text of the root's subtree that precedes the boundary point
    ([p], [off]): whole text nodes before it in document order, and the
    first [off] characters of the node when that is a text node. *)
Fixpoint textBefore (n : Node) (p : Path) (off : nat) : string :=
  match p with
  | [] =>
      match n with
      | Element _ cs => descendantTextList (firstn off cs)
      | Text s => substring 0 off s
      | Comment _ => EmptyString
      end
  | i :: p' =>
      match n with
      | Element _ cs =>
          (descendantTextList (firstn i cs) ++
           match nth_error cs i with
           | Some c => textBefore c p' off
           | None => EmptyString
           end)%string
      | _ => EmptyString
      end
  end.

Definition textBeforePoint (root : Node) (n : NodeRef) (off : nat) : string :=
  match n with
  | DocumentNode => EmptyString
  | Ref p _ => textBefore root p off
  end.

End DOM.

Import DOM.

(** ** The platform interface

    The methods of [Range] and [Selection] that the selection manager
    calls.  A range is a value here; a method that mutates its receiver
    returns the new value.  [toString] reads the tree of the root. *)

Record Platform : Type := mkPlatform {
  createRange : Completion Range;
  setStart : Range -> NodeRef -> Z -> Completion Range;
  setEnd : Range -> NodeRef -> Z -> Completion Range;
  collapse : Range -> bool -> Completion Range;
  selectNodeContents : Range -> NodeRef -> Completion Range;
  toString : Node -> Range -> string;
  removeAllRanges : list Range -> Completion (list Range);
  addRange : list Range -> Range -> Completion (list Range)
}.

(** The live selection: [None] when [document.getSelection()] is [null],
    otherwise the ranges of the [Selection] object ([rangeCount] is their
    number). *)
Definition LiveSelection : Type := option (list Range).

(** ** The platform as the DOM standard describes it

    The repository calls the browser's Range and Selection objects and
    does not contain them; [dom] gives them the behaviour the
    specification relies on. *)

Module StandardDOM.

(** Modelled from the spec: the offsets a boundary point on [n] may
    have, from 0 to the length of the node. *)
Definition validOffset (n : NodeRef) (off : Z) : bool :=
  (0 <=? off)%Z && (off <=? Z.of_nat (nodeLength n))%Z.

(** Modelled from the spec: [Range.setStart] of the platform.  Setting
    the start to a point after the current end moves the end there too;
    an offset above the node's length is an IndexSizeError (a negative
    one converts to an unsigned value above any length). *)
Definition Range_setStart (r : Range) (n : NodeRef) (off : Z) : Completion Range :=
  if validOffset n off then
    let o := Z.to_nat off in
    match comparePoints n o (endContainer r) (endOffset r) with
    | Gt => Normal (mkRange n o n o)
    | _ => Normal (mkRange n o (endContainer r) (endOffset r))
    end
  else Throw IndexSizeError.

(** Modelled from the spec: [Range.setEnd] of the platform, the mirror
    image of [Range_setStart]; an end before the current start moves the
    start there too. *)
Definition Range_setEnd (r : Range) (n : NodeRef) (off : Z) : Completion Range :=
  if validOffset n off then
    let o := Z.to_nat off in
    match comparePoints n o (startContainer r) (startOffset r) with
    | Lt => Normal (mkRange n o n o)
    | _ => Normal (mkRange (startContainer r) (startOffset r) n o)
    end
  else Throw IndexSizeError.

(** Modelled from the spec: [Range.collapse] of the platform. *)
Definition Range_collapse (r : Range) (toStart : bool) : Completion Range :=
  if toStart
  then Normal (mkRange (startContainer r) (startOffset r) (startContainer r) (startOffset r))
  else Normal (mkRange (endContainer r) (endOffset r) (endContainer r) (endOffset r)).

(** Modelled from the spec: [Range.selectNodeContents] of the platform;
    the range runs from the beginning to the end of the node's content. *)
Definition Range_selectNodeContents (r : Range) (n : NodeRef) : Completion Range :=
  Normal (mkRange n 0 n (nodeLength n)).

(** Modelled from the spec: [Range.toString] of the platform.  The string
    value of a range is the text of the text nodes between its two
    boundary points, in document order, with the partial text of a
    boundary text node (spec 4.1, step 2).  Only the tree of the root is
    read: this is the platform's value for a range whose two boundary
    points lie inside the root, and leaves out the text around the root
    for any other range. *)
Definition Range_toString (root : Node) (r : Range) : string :=
  let a := String.length (textBeforePoint root (startContainer r) (startOffset r)) in
  let b := String.length (textBeforePoint root (endContainer r) (endOffset r)) in
  substring a (b - a) (textBeforePoint root (endContainer r) (endOffset r)).

(** Modelled from the spec: [Selection.removeAllRanges] of the platform. *)
Definition Selection_removeAllRanges (rs : list Range) : Completion (list Range) :=
  Normal [].

(** Modelled from the spec: [Selection.addRange] of the platform.  A
    selection holds at most one range; adding one to a selection that
    already has a range does nothing. *)
Definition Selection_addRange (rs : list Range) (r : Range) : Completion (list Range) :=
  match rs with
  | [] => Normal [r]
  | _ :: _ => Normal rs
  end.

(** Modelled from the spec: the platform's Range and Selection methods
    together; [document.createRange()] returns a range collapsed at
    (document, 0). *)
Definition dom : Platform :=
  {| createRange := Normal (mkRange DocumentNode 0 DocumentNode 0);
     setStart := Range_setStart;
     setEnd := Range_setEnd;
     collapse := Range_collapse;
     selectNodeContents := Range_selectNodeContents;
     toString := Range_toString;
     removeAllRanges := Selection_removeAllRanges;
     addRange := Selection_addRange |}.

End StandardDOM.

(** ** src/types/index.ts *)

Record SerializedSelection : Type := mkSerializedSelection {
  start : Z;
  end_ : Z;
  startContainer : option NodeRef;
  endContainer : option NodeRef;
  collapsed : bool
}.

(** ** src/dom/Selection.ts *)

Module SelectionManager.

(** The mutable locals of [importSelection]'s loop other than [node] and
    [nodeStack]; [visited] is a ghost record of the nodes the loop was
    entered with, in order. *)
Record Walk : Type := mkWalk {
  charIndex : Z;
  foundStart : bool;
  stop : bool;
  range : Range;
  visited : list NodeRef
}.

Definition foundEnd : bool := false.

(** [nodeStack.pop() || null]; the head of the list is the top. *)
Definition pop (nodeStack : list NodeRef) : option NodeRef * list NodeRef :=
  match nodeStack with
  | [] => (None, [])
  | n :: rest => (Some n, rest)
  end.

(** [nodeStack.push(...xs)]: the elements are pushed one after the other. *)
Definition push (nodeStack : list NodeRef) (xs : list NodeRef) : list NodeRef :=
  fold_left (fun st x => x :: st) xs nodeStack.

(** [node.textContent?.length || 0] *)
Definition textLength (n : NodeRef) : Z :=
  match textContent n with
  | Some s => Z.of_nat (String.length s)
  | None => 0
  end.

Section WithPlatform.

Variable P : Platform.

Definition exportSelection (root : option Node) (live : LiveSelection)
  : Completion (option SerializedSelection) :=
  match root with
  | None => Normal None
  | Some rootNode =>
      match live with
      | None => Normal None
      | Some [] => Normal None
      | Some (range :: _) =>
          let preSelectionRange := range in
          pre1 <- selectNodeContents P preSelectionRange (Ref [] rootNode) ;;
          pre2 <- setEnd P pre1 (DOM.startContainer range) (Z.of_nat (startOffset range)) ;;
          let start := Z.of_nat (String.length (toString P rootNode pre2)) in
          Normal (Some {| start := start;
                          end_ := start + Z.of_nat (String.length (toString P rootNode range));
                          startContainer := Some (DOM.startContainer range);
                          endContainer := Some (DOM.endContainer range);
                          collapsed := DOM.collapsed range |})
      end
  end.

(** The body of [if (node.nodeType === Node.TEXT_NODE && !foundEnd)]. *)
Definition visitText (selectionState : SerializedSelection) (node : NodeRef) (w : Walk)
  : Completion Walk :=
  let nextCharIndex := (charIndex w + textLength node)%Z in
  w1 <- (if negb (foundStart w)
            && (charIndex w <=? start selectionState)%Z
            && (start selectionState <=? nextCharIndex)%Z
         then
           r <- setStart P (range w) node (start selectionState - charIndex w)%Z ;;
           Normal (mkWalk (charIndex w) true (stop w) r (visited w))
         else Normal w) ;;
  w2 <- (if foundStart w1
            && (charIndex w1 <=? end_ selectionState)%Z
            && (end_ selectionState <=? nextCharIndex)%Z
         then
           r <- setEnd P (range w1) node (end_ selectionState - charIndex w1)%Z ;;
           Normal (mkWalk (charIndex w1) (foundStart w1) true r (visited w1))
         else Normal w1) ;;
  Normal (mkWalk nextCharIndex (foundStart w2) (stop w2) (range w2) (visited w2)).

(** One pass through the body of [while (!stop && node)]: the next
    [node], the stack and the locals. *)
Definition iteration (selectionState : SerializedSelection)
    (node : NodeRef) (nodeStack : list NodeRef) (w : Walk)
  : Completion (option NodeRef * list NodeRef * Walk) :=
  let w := mkWalk (charIndex w) (foundStart w) (stop w) (range w) (visited w ++ [node]) in
  if (3 <? nodeType node)%Z then
    let (node', nodeStack') := pop nodeStack in
    Normal (node', nodeStack', w)
  else
    sw <- (if (nodeType node =? TEXT_NODE)%Z && negb foundEnd then
             w' <- visitText selectionState node w ;;
             Normal (nodeStack, w')
           else if negb (stop w) && (nodeType node =? ELEMENT_NODE)%Z then
             let children := rev (childNodes node) in
             Normal (push nodeStack children, w)
           else Normal (nodeStack, w)) ;;
    let (nodeStack1, w1) := sw : list NodeRef * Walk in
    if negb (stop w1) then
      let (node', nodeStack') := pop nodeStack1 in
      Normal (node', nodeStack', w1)
    else Normal (Some node, nodeStack1, w1).

(** The loop; [None] when [fuel] passes did not finish it. *)
Fixpoint walk (fuel : nat) (selectionState : SerializedSelection)
    (node : option NodeRef) (nodeStack : list NodeRef) (w : Walk)
  : option (Completion Walk) :=
  if stop w then Some (Normal w)
  else
    match node with
    | None => Some (Normal w)
    | Some n =>
        match fuel with
        | O => None
        | S fuel' =>
            match iteration selectionState n nodeStack w with
            | Throw e => Some (Throw e)
            | Normal (node', nodeStack', w') => walk fuel' selectionState node' nodeStack' w'
            end
        end
    end.

Definition selectRange (range : Range) (live : LiveSelection)
  : Completion unit * LiveSelection :=
  match live with
  | None => (Normal tt, live)
  | Some rs =>
      match removeAllRanges P rs with
      | Throw e => (Throw e, Some rs)
      | Normal rs1 =>
          match addRange P rs1 range with
          | Throw e => (Throw e, Some rs1)
          | Normal rs2 => (Normal tt, Some rs2)
          end
      end
  end.

(** The statements of the [try] block before the loop. *)
Definition initialRange (root : NodeRef) : Completion Range :=
  range <- createRange P ;;
  range <- setStart P range root 0%Z ;;
  collapse P range true.

Definition importSelectionFuel (fuel : nat)
    (root : option Node) (selectionState : option SerializedSelection)
    (live : LiveSelection) : option (bool * LiveSelection) :=
  match selectionState, root with
  | Some sel, Some rootNode =>
      match initialRange (Ref [] rootNode) with
      | Throw _ => Some (false, live)
      | Normal range0 =>
          match walk fuel sel (Some (Ref [] rootNode)) [] (mkWalk 0%Z false false range0 []) with
          | None => None
          | Some (Throw _) => Some (false, live)
          | Some (Normal w) =>
              match selectRange (range w) live with
              | (Throw _, live') => Some (false, live')
              | (Normal _, live') => Some (true, live')
              end
          end
      end
  | _, _ => Some (false, live)
  end.

End WithPlatform.

Definition below (i : nat) (qn : Path * Node) : Path * Node := (i :: fst qn, snd qn).

(** The nodes of a subtree in document order (depth first, parent before
    children), with their paths from the subtree's root. *)
Fixpoint preorder (n : Node) : list (Path * Node) :=
  ([], n) ::
  match n with
  | Element _ cs =>
      (fix go (i : nat) (l : list Node) : list (Path * Node) :=
         match l with
         | [] => []
         | c :: l' => map (below i) (preorder c) ++ go (S i) l'
         end) 0 cs
  | _ => []
  end.

Fixpoint preorderList (i : nat) (l : list Node) : list (Path * Node) :=
  match l with
  | [] => []
  | c :: l' => map (below i) (preorder c) ++ preorderList (S i) l'
  end.

Definition under (p : Path) (qn : Path * Node) : NodeRef := Ref (p ++ fst qn) (snd qn).

(** The loop is entered at most once for each node of the subtree. *)
Definition importSelection (P : Platform)
    (root : option Node) (selectionState : option SerializedSelection)
    (live : LiveSelection) : option (bool * LiveSelection) :=
  importSelectionFuel P
    (match root with Some n => List.length (preorder n) | None => 0 end)
    root selectionState live.

End SelectionManager.

Import SelectionManager.
Import StandardDOM.

(** ** Specification-side definitions

    The loop as a pass over a list of nodes, and the text offsets and
    document order that the proofs measure it against. *)

Module Spec.

(** What one pass through the loop body does to the locals. *)
Definition visit (P : Platform) (sel : SerializedSelection) (n : NodeRef) (w : Walk)
  : Completion Walk :=
  let w0 := mkWalk (charIndex w) (foundStart w) (stop w) (range w) (visited w ++ [n]) in
  match n with
  | Ref _ (Text _) => visitText P sel n w0
  | _ => Normal w0
  end.

Fixpoint process (P : Platform) (sel : SerializedSelection) (l : list NodeRef) (w : Walk)
  : Completion Walk :=
  match l with
  | [] => Normal w
  | n :: l' =>
      if stop w then Normal w
      else match visit P sel n w with
           | Normal w' => process P sel l' w'
           | Throw e => Throw e
           end
  end.

Definition subtreeRefs (n : NodeRef) : list NodeRef :=
  match n with
  | DocumentNode => [DocumentNode]
  | Ref p nd => map (under p) (preorder nd)
  end.

Fixpoint textLen (l : list (Path * Node)) : nat :=
  match l with
  | [] => 0
  | (_, Text s) :: l' => String.length s + textLen l'
  | _ :: l' => textLen l'
  end.

(** Along [l], every text node starts at the running text offset: [f q k]
    is the offset of the boundary point [k] characters into the text node
    at path [q]. *)
Fixpoint offs (f : Path -> nat -> nat) (acc : nat) (l : list (Path * Node)) : Prop :=
  match l with
  | [] => True
  | (q, Text s) :: l' =>
      (forall k, k <= String.length s -> f q k = acc + k) /\
      offs f (acc + String.length s) l'
  | _ :: l' => offs f acc l'
  end.

(** Every boundary point in a text node of [l] is after the point [k]. *)
Definition textsAfter (k : list nat) (l : list (Path * Node)) : Prop :=
  forall q s b, In (q, Text s) l -> lexCompare (q ++ [b]) k = Gt.

Fixpoint sortedTexts (l : list (Path * Node)) : Prop :=
  match l with
  | [] => True
  | (q, Text s) :: l' => (forall a, textsAfter (q ++ [a]) l') /\ sortedTexts l'
  | _ :: l' => sortedTexts l'
  end.

Definition offsetIn (n : Node) (q : Path) (k : nat) : nat :=
  String.length (textBefore n q k).

Definition offsetPoint (root : Node) (n : NodeRef) (o : nat) : nat :=
  String.length (textBeforePoint root n o).

Definition initialWalk (root : Node) : Walk :=
  mkWalk 0%Z false false (mkRange (Ref [] root) 0 (Ref [] root) 0) [].

End Spec.

Import Spec.

(** ** Sample documents and platforms *)

Module Examples.

Local Open Scope string_scope.

(** [<div>Hello World</div>] *)
Definition helloWorld : Node := Element "div" [Text "Hello World"].

(** [<div><p>Hello </p><b>World</b></div>] *)
Definition twoBlocks : Node :=
  Element "div" [Element "p" [Text "Hello "]; Element "b" [Text "World"]].

(** [<p>ab<br>cd</p>] *)
Definition withBreak : Node := Element "p" [Text "ab"; Element "br" []; Text "cd"].

(** A paragraph made of two adjacent text nodes. *)
Definition twoTexts : Node := Element "p" [Text "ab"; Text "cd"].

(** [<p>ab<!--note--></p>] with an empty text node in front. *)
Definition emptyFirst : Node := Element "p" [Text EmptyString; Text "ab"; Comment "note"].

Definition snapshot (a b : Z) : SerializedSelection :=
  mkSerializedSelection a b None None (Z.eqb a b).

(** A platform whose [addRange] rejects every range. *)
Definition rejecting : Platform :=
  {| createRange := createRange dom;
     setStart := setStart dom;
     setEnd := setEnd dom;
     collapse := collapse dom;
     selectNodeContents := selectNodeContents dom;
     toString := toString dom;
     removeAllRanges := removeAllRanges dom;
     addRange := fun _ _ => Throw InvalidStateError |}.

End Examples.

(** ** The platform's tree walker and selection state *)

Module TreeWalker.

Definition isTextRef (n : NodeRef) : bool := (nodeType n =? TEXT_NODE)%Z.

(** Modelled from the spec: the platform's tree walker with
    [NodeFilter.SHOW_TEXT], as the text nodes below its root that it has
    yet to return, in document order; the root itself is never returned.
    The callers pass elements of the tree; the content of the document
    around it is not modelled. *)
Definition createTreeWalker (root : NodeRef) : list NodeRef :=
  match root with
  | DocumentNode => []
  | Ref p nd => filter isTextRef (map (under p) (tl (preorder nd)))
  end.

(** Modelled from the spec: [walker.nextNode()], [null] when no text
    node is left. *)
Definition nextNode (walker : list NodeRef) : option NodeRef * list NodeRef :=
  match walker with
  | [] => (None, [])
  | n :: rest => (Some n, rest)
  end.

(** Modelled from the spec: [selection.isCollapsed] of the platform, true
    for a selection without a range. *)
Definition Selection_isCollapsed (rs : list Range) : bool :=
  match rs with
  | [] => true
  | r :: _ => DOM.collapsed r
  end.

End TreeWalker.

Import TreeWalker.

(** ** src/dom/Selection.ts, the other methods *)

Module SelectionOps.

(** [getSelectionStart] *)
Definition getSelectionStart (live : LiveSelection) : option NodeRef :=
  match live with
  | None => None
  | Some [] => None
  | Some (range :: _) => Some (DOM.startContainer range)
  end.

(** [getSelectionEnd] *)
Definition getSelectionEnd (live : LiveSelection) : option NodeRef :=
  match live with
  | None => None
  | Some [] => None
  | Some (range :: _) => Some (DOM.endContainer range)
  end.

Section WithPlatform.

Variable P : Platform.

Definition selectNode (node : NodeRef) (live : LiveSelection) : bool * LiveSelection :=
  match (range <- createRange P ;; selectNodeContents P range node) with
  | Throw _ => (false, live)
  | Normal range =>
      match live with
      | None => (false, live)
      | Some rs =>
          match removeAllRanges P rs with
          | Throw _ => (false, Some rs)
          | Normal rs1 =>
              match addRange P rs1 range with
              | Throw _ => (false, Some rs1)
              | Normal rs2 => (true, Some rs2)
              end
          end
      end
  end.

Definition moveCursorToEnd (element : NodeRef) (live : LiveSelection)
  : Completion unit * LiveSelection :=
  match (range <- createRange P ;;
         range <- selectNodeContents P range element ;;
         collapse P range false) with
  | Throw e => (Throw e, live)
  | Normal range =>
      match live with
      | None => (Normal tt, live)
      | Some rs =>
          match removeAllRanges P rs with
          | Throw e => (Throw e, Some rs)
          | Normal rs1 =>
              match addRange P rs1 range with
              | Throw e => (Throw e, Some rs1)
              | Normal rs2 => (Normal tt, Some rs2)
              end
          end
      end
  end.

Definition moveCursorToStart (element : NodeRef) (live : LiveSelection)
  : Completion unit * LiveSelection :=
  match (range <- createRange P ;;
         range <- selectNodeContents P range element ;;
         collapse P range true) with
  | Throw e => (Throw e, live)
  | Normal range =>
      match live with
      | None => (Normal tt, live)
      | Some rs =>
          match removeAllRanges P rs with
          | Throw e => (Throw e, Some rs)
          | Normal rs1 =>
              match addRange P rs1 range with
              | Throw e => (Throw e, Some rs1)
              | Normal rs2 => (Normal tt, Some rs2)
              end
          end
      end
  end.

End WithPlatform.

Definition getFirstTextNode (element : NodeRef) : option NodeRef :=
  fst (nextNode (createTreeWalker element)).

(** [while ((currentNode = walker.nextNode())) lastNode = currentNode] *)
Fixpoint lastNodeLoop (walker : list NodeRef) (lastNode : option NodeRef) : option NodeRef :=
  match walker with
  | [] => lastNode
  | currentNode :: rest => lastNodeLoop rest (Some currentNode)
  end.

Definition getLastTextNode (element : NodeRef) : option NodeRef :=
  lastNodeLoop (createTreeWalker element) None.

Definition isSelectionAtBeginning (element : NodeRef) (live : LiveSelection) : bool :=
  match live with
  | None => false
  | Some [] => false
  | Some (range :: _) =>
      if sameNode (DOM.startContainer range) element && Nat.eqb (startOffset range) 0
      then true
      else
        match getFirstTextNode element with
        | Some firstTextNode =>
            if sameNode firstTextNode (DOM.startContainer range)
               && Nat.eqb (startOffset range) 0
            then true else false
        | None => false
        end
  end.

Definition isSelectionAtEnd (element : NodeRef) (live : LiveSelection) : bool :=
  match live with
  | None => false
  | Some [] => false
  | Some (range :: _) =>
      if sameNode (DOM.endContainer range) element
         && Nat.eqb (endOffset range) (List.length (childNodes element))
      then true
      else
        match getLastTextNode element with
        | Some lastTextNode =>
            if sameNode lastTextNode (DOM.endContainer range)
               && (Z.of_nat (endOffset range) =? textLength lastTextNode)%Z
            then true else false
        | None => false
        end
  end.

Definition hasSelection (live : LiveSelection) : bool :=
  match live with
  | None => false
  | Some rs => negb (Selection_isCollapsed rs)
  end.

End SelectionOps.

Import SelectionOps.

(** ** src/core/Editor.ts, saving and restoring the selection *)

Module Editor.

(** The two fields of the editor that [saveSelection] and
    [restoreSelection] read and write. *)
Record State : Type := mkState {
  focusedElement : option Node;
  savedSelection : option SerializedSelection
}.

Definition saveSelection (P : Platform) (this : State) (live : LiveSelection)
  : Completion (option SerializedSelection) * State :=
  match focusedElement this with
  | None => (Normal None, this)
  | Some element =>
      match exportSelection P (Some element) live with
      | Throw e => (Throw e, this)
      | Normal s => (Normal s, mkState (focusedElement this) s)
      end
  end.

Definition restoreSelection (P : Platform) (this : State) (live : LiveSelection)
  : option (bool * LiveSelection) :=
  match focusedElement this, savedSelection this with
  | Some element, Some saved => importSelection P (Some element) (Some saved) live
  | _, _ => Some (false, live)
  end.

End Editor.

(** ** Specification-side definitions for the other methods *)

Module Spec2.

(** The first and the last text node of a list of nodes. *)
Fixpoint firstText (l : list (Path * Node)) : option (Path * string) :=
  match l with
  | [] => None
  | (q, Text s) :: _ => Some (q, s)
  | _ :: l' => firstText l'
  end.

Fixpoint lastText (l : list (Path * Node)) (acc : option (Path * string))
  : option (Path * string) :=
  match l with
  | [] => acc
  | (q, Text s) :: l' => lastText l' (Some (q, s))
  | _ :: l' => lastText l' acc
  end.

(** The node of a tree at a path. *)
Fixpoint nodeAt (n : Node) (p : Path) : option Node :=
  match p with
  | [] => Some n
  | i :: p' =>
      match n with
      | Element _ cs =>
          match nth_error cs i with
          | Some c => nodeAt c p'
          | None => None
          end
      | _ => None
      end
  end.

(** The node reference names a node of the tree of [root]: the selection
    point it carries lies inside the root. *)
Definition inTree (root : Node) (n : NodeRef) : Prop :=
  match n with
  | DocumentNode => False
  | Ref p nd => nodeAt root p = Some nd
  end.

(** Both boundary points of the range lie inside the root. *)
Definition rangeInside (root : Node) (r : Range) : Prop :=
  inTree root (DOM.startContainer r) /\ inTree root (DOM.endContainer r).

End Spec2.

Import Spec2.

(** ** The block parent of the selection

    [getSelectionParent] and [getSelectionBlockParent] of
    src/dom/Selection.ts, with [isBlockContainer] of src/utils/dom.ts.
    These methods take no root: the tree is that of the document element,
    whose top node has the document, not an element, as its parent. *)

Module BlockParent.

Local Open Scope string_scope.

(** A call returns a value or throws a TypeError. *)
Inductive Outcome (A : Type) : Type :=
| Returns (a : A)
| TypeError.

Arguments Returns {A} a.
Arguments TypeError {A}.

Definition blockContainerElementNames : list string :=
  [ "p"; "h1"; "h2"; "h3"; "h4"; "h5"; "h6"; "blockquote"; "pre"; "ul"; "li"; "ol";
    "address"; "article"; "aside"; "audio"; "canvas"; "dd"; "dl"; "dt"; "fieldset";
    "figcaption"; "figure"; "footer"; "form"; "header"; "hgroup"; "main"; "nav";
    "noscript"; "output"; "section"; "video"; "table"; "thead"; "tbody"; "tfoot";
    "tr"; "th"; "td" ].

(** Modelled from the spec: [String.prototype.toLowerCase] of the
    platform, on the ASCII letters; tag names are taken to be ASCII. *)
Definition lowerAscii (c : ascii) : ascii :=
  let n := nat_of_ascii c in
  if (65 <=? n)%nat && (n <=? 90)%nat then ascii_of_nat (n + 32) else c.

Fixpoint toLowerCase (s : string) : string :=
  match s with
  | EmptyString => EmptyString
  | String c s' => String (lowerAscii c) (toLowerCase s')
  end.

(** [element.tagName], undefined on a node that is not an element. *)
Definition tagName (n : NodeRef) : option string :=
  match n with
  | Ref _ (Element t _) => Some t
  | _ => None
  end.

(** [array.indexOf(x) !== -1] *)
Definition includes (names : list string) (x : string) : bool :=
  existsb (String.eqb x) names.

(** [isBlockContainer]; reading [toLowerCase] off an undefined tag name
    throws. *)
Definition isBlockContainer (element : NodeRef) : Outcome bool :=
  match tagName element with
  | Some t => Returns (includes blockContainerElementNames (toLowerCase t))
  | None => TypeError
  end.

Fixpoint commonPrefix (p q : Path) : Path :=
  match p, q with
  | i :: p', j :: q' => if Nat.eqb i j then i :: commonPrefix p' q' else []
  | _, _ => []
  end.

Definition refAt (top : Node) (p : Path) : NodeRef :=
  match nodeAt top p with
  | Some nd => Ref p nd
  | None => DocumentNode
  end.

(** Modelled from the spec: [range.commonAncestorContainer] of the
    platform, the deepest node that contains both boundary points; the
    document when a boundary point is not in the tree. *)
Definition commonAncestorContainer (top : Node) (r : Range) : NodeRef :=
  match DOM.startContainer r, DOM.endContainer r with
  | Ref p _, Ref q _ => refAt top (commonPrefix p q)
  | _, _ => DocumentNode
  end.

(** Modelled from the spec: [node.parentElement] of the platform, [null]
    for the top node of the tree and for the document. *)
Definition parentElement (top : Node) (n : NodeRef) : option NodeRef :=
  match n with
  | DocumentNode => None
  | Ref [] _ => None
  | Ref p _ =>
      match nodeAt top (removelast p) with
      | Some nd => Some (Ref (removelast p) nd)
      | None => None
      end
  end.

Definition getSelectionParent (top : Node) (live : LiveSelection) : option NodeRef :=
  match live with
  | None => None
  | Some [] => None
  | Some (range :: _) => Some (commonAncestorContainer top range)
  end.

(** [while (current) { ... }]; [None] when [fuel] passes did not finish
    the loop. *)
Fixpoint blockParentLoop (fuel : nat) (top : Node) (current : option NodeRef)
  : option (Outcome (option NodeRef)) :=
  match current with
  | None => Some (Returns None)
  | Some cur =>
      match fuel with
      | O => None
      | S fuel' =>
          match isBlockContainer cur with
          | TypeError => Some TypeError
          | Returns true => Some (Returns (Some cur))
          | Returns false =>
              match parentElement top cur with
              | None => Some (Returns None)
              | Some parent => blockParentLoop fuel' top (Some parent)
              end
          end
      end
  end.

Definition depth (n : NodeRef) : nat :=
  match n with
  | DocumentNode => 0
  | Ref p _ => List.length p
  end.

(** The loop climbs one level in each pass. *)
Definition getSelectionBlockParent (top : Node) (live : LiveSelection)
  : option (Outcome (option NodeRef)) :=
  match getSelectionParent top live with
  | None => Some (Returns None)
  | Some parent =>
      let current :=
        if (nodeType parent =? TEXT_NODE)%Z
        then parentElement top parent
        else Some parent in
      blockParentLoop (S (depth parent)) top current
  end.

(** [c] is the path of an ancestor of the node at [p], or of that node. *)
Definition isPrefix (c p : Path) : Prop := exists r, p = (c ++ r)%list.

(** [res] is the nearest block container among the elements on the way
    from the node at [p] up to the top of the tree, if there is one. *)
Definition nearestBlock (top : Node) (p : Path) (res : option NodeRef) : Prop :=
  match res with
  | Some (Ref c e) =>
      isPrefix c p /\
      nodeAt top c = Some e /\
      isBlockContainer (Ref c e) = Returns true /\
      forall c' t' cs',
        isPrefix c c' -> c' <> c -> isPrefix c' p ->
        nodeAt top c' = Some (Element t' cs') ->
        isBlockContainer (Ref c' (Element t' cs')) = Returns false
  | Some DocumentNode => False
  | None =>
      forall c' t' cs',
        isPrefix c' p ->
        nodeAt top c' = Some (Element t' cs') ->
        isBlockContainer (Ref c' (Element t' cs')) = Returns false
  end.

(** [<div><p>Hello <b>World</b><!--x--></p></div>] *)
Definition nested : Node :=
  Element "DIV" [Element "P" [Text "Hello "; Element "B" [Text "World"]; Comment "x"]].

End BlockParent.

(** ** The loop as a pass over the nodes in document order *)

Module WalkSpec.

Lemma preorder_Element (t : string) (cs : list Node) :
  preorder (Element t cs) = ([], Element t cs) :: preorderList 0 cs.
Proof. reflexivity. Qed.

Lemma push_rev (st xs : list NodeRef) : push st (rev xs) = xs ++ st.
Proof.
  unfold push.
  assert (H : forall (l s : list NodeRef), fold_left (fun a x => x :: a) l s = rev l ++ s).
  { induction l as [|x l IH]; intros s; simpl; [reflexivity|].
    rewrite IH, <- app_assoc. reflexivity. }
  rewrite H, rev_involutive. reflexivity.
Qed.

Lemma under_children (p : Path) (i : nat) (cs : list Node) :
  map (under p) (preorderList i cs) = flat_map subtreeRefs (indexFrom p i cs).
Proof.
  revert i. induction cs as [|c cs IH]; intros i; simpl; [reflexivity|].
  rewrite map_app, map_map, IH. f_equal.
  apply map_ext. intros [q m]. unfold under. simpl.
  rewrite <- app_assoc. reflexivity.
Qed.

Lemma subtreeRefs_unfold (n : NodeRef) :
  subtreeRefs n = n :: flat_map subtreeRefs (childNodes n).
Proof.
  destruct n as [|p [t cs|s|s]]; simpl; unfold under; simpl;
    rewrite ?app_nil_r; try reflexivity.
  f_equal. apply (under_children p 0 cs).
Qed.

Lemma process_stopped P sel l w : stop w = true -> process P sel l w = Normal w.
Proof. intros H. destruct l; simpl; [reflexivity|]. rewrite H. reflexivity. Qed.

Lemma visitText_stop_visited P sel n w w' :
  visitText P sel n w = Normal w' -> visited w' = visited w.
Proof.
  unfold visitText. intros H.
  destruct (negb (foundStart w) && (charIndex w <=? start sel)%Z &&
            (start sel <=? charIndex w + textLength n)%Z).
  - destruct (setStart P (range w) n (start sel - charIndex w)%Z) as [r|e];
      simpl in H; [|discriminate].
    match type of H with
    | context [if ?b then _ else _] => destruct b
    end; simpl in H.
    + destruct (setEnd P r n (end_ sel - charIndex w)%Z); simpl in H; [|discriminate].
      inversion H; reflexivity.
    + inversion H; reflexivity.
  - simpl in H.
    match type of H with
    | context [if ?b then _ else _] => destruct b
    end; simpl in H.
    + destruct (setEnd P (range w) n (end_ sel - charIndex w)%Z); simpl in H; [|discriminate].
      inversion H; reflexivity.
    + inversion H; reflexivity.
Qed.

(** One pass of the loop: the locals change as [visit] says; the next
    node is popped from the stack extended with the children, unless the
    pass set [stop]. *)
Lemma iteration_visit P sel n st w :
  stop w = false ->
  iteration P sel n st w =
  match visit P sel n w with
  | Throw e => Throw e
  | Normal w' =>
      if stop w' then Normal (Some n, st, w')
      else Normal (fst (pop (childNodes n ++ st)), snd (pop (childNodes n ++ st)), w')
  end.
Proof.
  intros Hs. unfold iteration, visit.
  destruct n as [|p [t cs|s|s]]; simpl; rewrite ?Hs; simpl.
  - destruct st; reflexivity.
  - rewrite push_rev. destruct (indexFrom p 0 cs ++ st); reflexivity.
  - destruct (visitText P sel (Ref p (Text s)) _) as [w'|e]; simpl; [|reflexivity].
    destruct (stop w'); simpl; [reflexivity|]. destruct st; reflexivity.
  - destruct st; reflexivity.
Qed.

Lemma walk_process P sel :
  forall fuel n st w,
    List.length (flat_map subtreeRefs (n :: st)) <= fuel ->
    walk P fuel sel (Some n) st w = Some (process P sel (flat_map subtreeRefs (n :: st)) w).
Proof.
  induction fuel as [|fuel IH]; intros n st w Hlen.
  - simpl in Hlen. rewrite subtreeRefs_unfold in Hlen. simpl in Hlen. lia.
  - cbn [flat_map] in *. rewrite subtreeRefs_unfold in *. cbn [app] in *.
    cbn [walk process]. destruct (stop w) eqn:Hs; [reflexivity|].
    rewrite iteration_visit by assumption.
    destruct (visit P sel n w) as [w'|e]; [|reflexivity].
    destruct (stop w') eqn:Hs'.
    + destruct fuel; simpl; rewrite Hs'; rewrite ?process_stopped by assumption;
        reflexivity.
    + rewrite <- flat_map_app. rewrite <- flat_map_app in Hlen.
      destruct (childNodes n ++ st) as [|m st'] eqn:Hst.
      * simpl. destruct fuel; simpl; rewrite Hs'; reflexivity.
      * cbn [pop fst snd]. apply IH. simpl in Hlen. lia.
Qed.

(** The loop of [importSelection] ends within the fuel it is given, and
    computes the pass over the root's subtree. *)
Lemma walk_root P sel (rootNode : Node) w :
  walk P (List.length (preorder rootNode)) sel (Some (Ref [] rootNode)) [] w =
  Some (process P sel (map (under []) (preorder rootNode)) w).
Proof.
  rewrite walk_process.
  - simpl. rewrite app_nil_r. reflexivity.
  - simpl. rewrite app_nil_r, length_map. lia.
Qed.

End WalkSpec.

(** ** Text offsets and document order of the nodes of a tree *)

Module TreeFacts.

Lemma Node_forall_ind (Q : Node -> Prop)
  (HE : forall t cs, Forall Q cs -> Q (Element t cs))
  (HT : forall s, Q (Text s))
  (HC : forall s, Q (Comment s)) :
  forall n, Q n.
Proof.
  fix IH 1. intros [t cs|s|s].
  - apply HE. induction cs as [|c cs IHcs]; constructor.
    + apply IH.
    + exact IHcs.
  - apply HT.
  - apply HC.
Qed.

Lemma length_append (a b : string) :
  String.length (a ++ b) = String.length a + String.length b.
Proof. induction a as [|c a IH]; simpl; [reflexivity|]. rewrite IH. reflexivity. Qed.

Lemma length_substring (s : string) :
  forall a m, a + m <= String.length s -> String.length (substring a m s) = m.
Proof.
  induction s as [|c s IH]; intros a m H; simpl in *.
  - destruct a, m; simpl; lia.
  - destruct a as [|a]; simpl.
    + destruct m as [|m]; simpl; [reflexivity|]. rewrite IH by lia. reflexivity.
    + apply IH. lia.
Qed.

Lemma descendantTextList_app (l1 l2 : list Node) :
  descendantTextList (l1 ++ l2) = (descendantTextList l1 ++ descendantTextList l2)%string.
Proof.
  induction l1 as [|c l1 IH]; simpl; [reflexivity|].
  rewrite IH. induction (descendantText c); simpl; congruence.
Qed.

Lemma textLen_app l1 l2 : textLen (l1 ++ l2) = textLen l1 + textLen l2.
Proof.
  induction l1 as [|[q [t cs|s|s]] l1 IH]; simpl; lia.
Qed.

Lemma textLen_below i l : textLen (map (below i) l) = textLen l.
Proof.
  induction l as [|[q [t cs|s|s]] l IH]; simpl; lia.
Qed.

Lemma textLen_preorder : forall n, textLen (preorder n) = String.length (descendantText n).
Proof.
  induction n as [t cs IH|s|s] using Node_forall_ind; simpl; try lia.
  change (textLen (preorderList 0 cs) = String.length (descendantTextList cs)).
  generalize 0. induction IH as [|c cs Hc _ IHcs]; intros i; [reflexivity|].
  cbn [preorderList descendantTextList].
  rewrite textLen_app, textLen_below, length_append, Hc, IHcs.
  reflexivity.
Qed.

Lemma textLen_preorderList i cs :
  textLen (preorderList i cs) = String.length (descendantTextList cs).
Proof.
  revert i. induction cs as [|c cs IH]; intros i; [reflexivity|].
  cbn [preorderList descendantTextList].
  rewrite textLen_app, textLen_below, length_append, textLen_preorder, IH.
  reflexivity.
Qed.

Lemma offs_app f acc l1 l2 :
  offs f acc l1 -> offs f (acc + textLen l1) l2 -> offs f acc (l1 ++ l2).
Proof.
  revert acc. induction l1 as [|[q [t cs|s|s]] l1 IH]; intros acc H1 H2; simpl in *.
  - rewrite Nat.add_0_r in H2. exact H2.
  - apply IH; assumption.
  - destruct H1 as [H1 H1']. split; [exact H1|]. apply IH; [exact H1'|].
    rewrite <- Nat.add_assoc. exact H2.
  - apply IH; assumption.
Qed.

Lemma offs_below f g base i acc l :
  (forall q k, g (i :: q) k = base + f q k) ->
  offs f acc l -> offs g (base + acc) (map (below i) l).
Proof.
  intros Hg. revert acc. induction l as [|[q [t cs|s|s]] l IH]; intros acc H; simpl in *.
  - exact I.
  - apply IH; assumption.
  - destruct H as [H H']. split.
    + intros k Hk. rewrite Hg, H by assumption. lia.
    + rewrite <- Nat.add_assoc. apply IH. exact H'.
  - apply IH; assumption.
Qed.

(** The text nodes of a tree, in document order, tile its text: each one
    starts at the offset where the one before ends. *)
Lemma offs_preorder : forall n, offs (offsetIn n) 0 (preorder n).
Proof.
  induction n as [t cs IH|s|s] using Node_forall_ind.
  - rewrite WalkSpec.preorder_Element. cbn [offs].
    assert (G : forall rest done, cs = done ++ rest -> Forall (fun c => offs (offsetIn c) 0 (preorder c)) rest ->
                offs (offsetIn (Element t cs)) (String.length (descendantTextList done))
                     (preorderList (List.length done) rest)).
    { induction rest as [|c rest IHr]; intros done Hcs HF; [exact I|].
      inversion HF as [|? ? Hc HF']; subst.
      cbn [preorderList].
      apply offs_app.
      - rewrite <- (Nat.add_0_r (String.length (descendantTextList done))).
        apply offs_below with (f := offsetIn c); [|exact Hc].
        intros q k. unfold offsetIn. simpl.
        rewrite firstn_app, Nat.sub_diag, firstn_all. simpl. rewrite app_nil_r.
        rewrite nth_error_app2, Nat.sub_diag by lia. simpl.
        apply length_append.
      - rewrite textLen_below, textLen_preorder.
        specialize (IHr (done ++ [c])).
        rewrite length_app, descendantTextList_app, length_append in IHr. simpl in IHr.
        assert (E : String.length (descendantText c ++ EmptyString)%string = String.length (descendantText c)).
        { rewrite length_append. simpl. lia. }
        rewrite E, Nat.add_1_r in IHr. apply IHr; [|exact HF'].
        rewrite <- app_assoc. reflexivity. }
    apply (G cs []); [reflexivity|exact IH].
  - simpl. split; [|exact I]. intros k Hk. unfold offsetIn. simpl.
    apply length_substring. lia.
  - exact I.
Qed.

Lemma lexCompare_snoc (q : list nat) (x y : nat) :
  lexCompare (q ++ [x]) (q ++ [y]) = Nat.compare x y.
Proof.
  induction q as [|i q IH]; simpl.
  - destruct (Nat.compare x y); reflexivity.
  - rewrite Nat.compare_refl. exact IH.
Qed.

Lemma In_preorderList q n i cs :
  In (q, n) (preorderList i cs) -> exists j q', q = j :: q' /\ i <= j.
Proof.
  revert i. induction cs as [|c cs IH]; intros i H; simpl in H; [contradiction|].
  apply in_app_iff in H. destruct H as [H|H].
  - apply in_map_iff in H. destruct H as [[q' n'] [E _]].
    inversion E; subst. exists i, q'. split; [reflexivity|lia].
  - destruct (IH _ H) as [j [q' [E Hj]]]. exists j, q'. split; [exact E|lia].
Qed.

Lemma textsAfter_below i k l :
  textsAfter k l -> textsAfter (i :: k) (map (below i) l).
Proof.
  intros H q s b Hin. apply in_map_iff in Hin. destruct Hin as [[q' n'] [E Hin]].
  inversion E; subst. simpl. rewrite Nat.compare_refl. apply (H q' s b Hin).
Qed.

Lemma sortedTexts_below i l : sortedTexts l -> sortedTexts (map (below i) l).
Proof.
  induction l as [|[q [t cs|s|s]] l IH]; simpl; intros H; auto.
  destruct H as [H H']. split; [|auto].
  intros a. apply (textsAfter_below i (q ++ [a]) l (H a)).
Qed.

Lemma sortedTexts_app l1 l2 :
  sortedTexts l1 -> sortedTexts l2 ->
  (forall q s a, In (q, Text s) l1 -> textsAfter (q ++ [a]) l2) ->
  sortedTexts (l1 ++ l2).
Proof.
  induction l1 as [|[q [t cs|s|s]] l1 IH]; simpl; intros H1 H2 Hx; auto.
  - apply IH; auto. intros q0 s0 a Hin. apply (Hx q0 s0 a). right. exact Hin.
  - destruct H1 as [H1 H1']. split.
    + intros a q' s' b Hin. apply in_app_iff in Hin. destruct Hin as [Hin|Hin].
      * apply (H1 a q' s' b Hin).
      * apply (Hx q s a (or_introl eq_refl) q' s' b Hin).
    + apply IH; auto. intros q0 s0 a Hin. apply (Hx q0 s0 a). right. exact Hin.
  - apply IH; auto. intros q0 s0 a Hin. apply (Hx q0 s0 a). right. exact Hin.
Qed.

Lemma sortedTexts_preorderList cs :
  Forall (fun c => sortedTexts (preorder c)) cs ->
  forall i, sortedTexts (preorderList i cs).
Proof.
  induction 1 as [|c cs Hc _ IH]; intros i; simpl; [exact I|].
  apply sortedTexts_app.
  - apply sortedTexts_below. exact Hc.
  - apply IH.
  - intros q s a Hin q' s' b Hin'.
    apply in_map_iff in Hin. destruct Hin as [[q0 n0] [E _]]. inversion E; subst.
    apply In_preorderList in Hin'. destruct Hin' as [j [q1 [-> Hj]]].
    simpl. destruct (Nat.compare_spec j i); try lia. reflexivity.
Qed.

(** The text nodes of a tree are listed in document order. *)
Lemma sortedTexts_preorder : forall n, sortedTexts (preorder n).
Proof.
  induction n as [t cs IH|s|s] using Node_forall_ind.
  - rewrite WalkSpec.preorder_Element. simpl. apply sortedTexts_preorderList. exact IH.
  - simpl. split; [|exact I]. intros a q s' b [].
  - exact I.
Qed.

(** Every text node below an element is after the element's point 0. *)
Lemma textsAfter_root t cs : textsAfter [0] (preorder (Element t cs)).
Proof.
  intros q s b Hin. rewrite WalkSpec.preorder_Element in Hin.
  destruct Hin as [E|Hin]; [inversion E|].
  apply In_preorderList in Hin. destruct Hin as [j [q' [-> _]]].
  simpl. destruct j; [|reflexivity]. simpl.
  destruct (q' ++ [b]) eqn:E; [|reflexivity].
  destruct q'; discriminate.
Qed.

End TreeFacts.

(** ** The pass over the tree on the standard platform *)

Module Restore.

Import WalkSpec TreeFacts.

Ltac zbool :=
  repeat match goal with
  | |- context [(?a <=? ?b)%Z] => destruct (Z.leb_spec a b); try lia
  | |- context [(?a <? ?b)%Z] => destruct (Z.ltb_spec a b); try lia
  end.

Lemma validOffset_text q s off :
  (0 <= off <= Z.of_nat (String.length s))%Z ->
  validOffset (Ref q (Text s)) off = true.
Proof. intros H. unfold validOffset. simpl. zbool; try reflexivity. Qed.

Lemma setStart_after r n off :
  validOffset n off = true ->
  comparePoints n (Z.to_nat off) (DOM.endContainer r) (endOffset r) = Gt ->
  Range_setStart r n off = Normal (mkRange n (Z.to_nat off) n (Z.to_nat off)).
Proof. intros Hv Hc. unfold Range_setStart. rewrite Hv, Hc. reflexivity. Qed.

Lemma setEnd_not_before r n off :
  validOffset n off = true ->
  comparePoints n (Z.to_nat off) (DOM.startContainer r) (startOffset r) <> Lt ->
  Range_setEnd r n off =
  Normal (mkRange (DOM.startContainer r) (startOffset r) n (Z.to_nat off)).
Proof.
  intros Hv Hc. unfold Range_setEnd. rewrite Hv.
  destruct (comparePoints n (Z.to_nat off) (DOM.startContainer r) (startOffset r));
    congruence.
Qed.

Lemma setStart_valid r n off :
  validOffset n off = true -> exists r', Range_setStart r n off = Normal r'.
Proof.
  intros Hv. unfold Range_setStart. rewrite Hv.
  destruct (comparePoints _ _ _ _); eauto.
Qed.

Lemma setEnd_valid r n off :
  validOffset n off = true -> exists r', Range_setEnd r n off = Normal r'.
Proof.
  intros Hv. unfold Range_setEnd. rewrite Hv.
  destruct (comparePoints _ _ _ _); eauto.
Qed.

Section Visit.

Variable sel : SerializedSelection.
Variables (q : Path) (s : string) (w : Walk).

(** The start is not in this text node. *)
Lemma visit_before_start :
  foundStart w = false ->
  (start sel < charIndex w \/ charIndex w + Z.of_nat (String.length s) < start sel)%Z ->
  visit dom sel (Ref q (Text s)) w =
  Normal (mkWalk (charIndex w + Z.of_nat (String.length s)) false (stop w) (range w) (visited w ++ [Ref q (Text s)])).
Proof.
  intros Hf Hs. unfold visit, visitText, textLength. simpl. rewrite Hf. simpl.
  zbool; simpl; try reflexivity.
Qed.

(** The start was found before and the end is not in this text node. *)
Lemma visit_before_end :
  foundStart w = true ->
  (end_ sel < charIndex w \/ charIndex w + Z.of_nat (String.length s) < end_ sel)%Z ->
  visit dom sel (Ref q (Text s)) w =
  Normal (mkWalk (charIndex w + Z.of_nat (String.length s)) true (stop w) (range w) (visited w ++ [Ref q (Text s)])).
Proof.
  intros Hf Hs. unfold visit, visitText, textLength. simpl. rewrite Hf. simpl.
  zbool; simpl; try reflexivity.
Qed.

(** The start was found before and the end is in this text node. *)
Lemma visit_end :
  foundStart w = true ->
  (charIndex w <= end_ sel <= charIndex w + Z.of_nat (String.length s))%Z ->
  comparePoints (Ref q (Text s)) (Z.to_nat (end_ sel - charIndex w))
    (DOM.startContainer (range w)) (startOffset (range w)) <> Lt ->
  visit dom sel (Ref q (Text s)) w =
  Normal (mkWalk (charIndex w + Z.of_nat (String.length s)) true true
            (mkRange (DOM.startContainer (range w)) (startOffset (range w))
                     (Ref q (Text s)) (Z.to_nat (end_ sel - charIndex w))) (visited w ++ [Ref q (Text s)])).
Proof.
  intros Hf He Hc. unfold visit, visitText, textLength. simpl. rewrite Hf. simpl.
  zbool; simpl.
  rewrite setEnd_not_before; [reflexivity| |exact Hc].
  apply validOffset_text. lia.
Qed.

(** The start is in this text node and the end is too. *)
Lemma visit_start_end :
  foundStart w = false ->
  (charIndex w <= start sel <= charIndex w + Z.of_nat (String.length s))%Z ->
  (start sel <= end_ sel <= charIndex w + Z.of_nat (String.length s))%Z ->
  comparePoints (Ref q (Text s)) (Z.to_nat (start sel - charIndex w))
    (DOM.endContainer (range w)) (endOffset (range w)) = Gt ->
  visit dom sel (Ref q (Text s)) w =
  Normal (mkWalk (charIndex w + Z.of_nat (String.length s)) true true
            (mkRange (Ref q (Text s)) (Z.to_nat (start sel - charIndex w))
                     (Ref q (Text s)) (Z.to_nat (end_ sel - charIndex w))) (visited w ++ [Ref q (Text s)])).
Proof.
  intros Hf Hs He Hc. unfold visit, visitText, textLength. simpl. rewrite Hf. simpl.
  zbool; simpl.
  rewrite setStart_after; [|apply validOffset_text; lia|exact Hc].
  simpl. zbool; simpl.
  rewrite setEnd_not_before; [reflexivity|apply validOffset_text; lia|].
  unfold comparePoints. simpl. rewrite lexCompare_snoc.
  destruct (Nat.compare_spec (Z.to_nat (end_ sel - charIndex w))
              (Z.to_nat (start sel - charIndex w))); try discriminate. lia.
Qed.

(** The start is in this text node and the end is further on. *)
Lemma visit_start_only :
  foundStart w = false ->
  (charIndex w <= start sel <= charIndex w + Z.of_nat (String.length s))%Z ->
  (charIndex w + Z.of_nat (String.length s) < end_ sel)%Z ->
  comparePoints (Ref q (Text s)) (Z.to_nat (start sel - charIndex w))
    (DOM.endContainer (range w)) (endOffset (range w)) = Gt ->
  visit dom sel (Ref q (Text s)) w =
  Normal (mkWalk (charIndex w + Z.of_nat (String.length s)) true (stop w)
            (mkRange (Ref q (Text s)) (Z.to_nat (start sel - charIndex w))
                     (Ref q (Text s)) (Z.to_nat (start sel - charIndex w))) (visited w ++ [Ref q (Text s)])).
Proof.
  intros Hf Hs He Hc. unfold visit, visitText, textLength. simpl. rewrite Hf. simpl.
  zbool; simpl.
  rewrite setStart_after; [|apply validOffset_text; lia|exact Hc].
  simpl. zbool; simpl. reflexivity.
Qed.

End Visit.

(** On the standard platform no call of the loop body throws. *)
Lemma visit_dom_normal sel n w : exists w', visit dom sel n w = Normal w'.
Proof.
  destruct n as [|p [t cs|s|s]]; simpl; eauto.
  unfold visitText, textLength. simpl.
  set (w0 := mkWalk _ _ _ _ _).
  destruct (negb (foundStart w) && (charIndex w <=? start sel)%Z &&
            (start sel <=? charIndex w + Z.of_nat (String.length s))%Z) eqn:E1.
  - apply andb_prop in E1. destruct E1 as [E1 E1b]. apply andb_prop in E1.
    destruct E1 as [_ E1a]. apply Z.leb_le in E1a, E1b.
    destruct (setStart_valid (range w) (Ref p (Text s)) (start sel - charIndex w)%Z)
      as [r Hr]; [apply validOffset_text; lia|].
    simpl. rewrite Hr. simpl.
    destruct ((charIndex w <=? end_ sel)%Z &&
              (end_ sel <=? charIndex w + Z.of_nat (String.length s))%Z) eqn:E2.
    + apply andb_prop in E2. destruct E2 as [E2a E2b]. apply Z.leb_le in E2a, E2b.
      destruct (setEnd_valid r (Ref p (Text s)) (end_ sel - charIndex w)%Z)
        as [r' Hr']; [apply validOffset_text; lia|].
      rewrite Hr'. simpl. eauto.
    + simpl. eauto.
  - simpl.
    destruct (foundStart w && (charIndex w <=? end_ sel)%Z &&
              (end_ sel <=? charIndex w + Z.of_nat (String.length s))%Z) eqn:E2.
    + apply andb_prop in E2. destruct E2 as [E2 E2b]. apply andb_prop in E2.
      destruct E2 as [_ E2a]. apply Z.leb_le in E2a, E2b.
      destruct (setEnd_valid (range w) (Ref p (Text s)) (end_ sel - charIndex w)%Z)
        as [r' Hr']; [apply validOffset_text; lia|].
      rewrite Hr'. simpl. eauto.
    + simpl. eauto.
Qed.

Lemma process_dom_normal sel l : forall w, exists w', process dom sel l w = Normal w'.
Proof.
  induction l as [|n l IH]; intros w; simpl; [eauto|].
  destruct (stop w); [eauto|].
  destruct (visit_dom_normal sel n w) as [w1 H1]. rewrite H1. apply IH.
Qed.

Lemma eqPath_refl p : eqPath p p = true.
Proof. induction p as [|i p IH]; simpl; [reflexivity|]. rewrite Nat.eqb_refl. exact IH. Qed.

Lemma eqPath_eq p q : eqPath p q = true -> p = q.
Proof.
  revert q. induction p as [|i p IH]; intros [|j q] H; simpl in H; try discriminate.
  - reflexivity.
  - apply andb_prop in H. destruct H as [H1 H2]. apply Nat.eqb_eq in H1.
    rewrite (IH _ H2), H1. reflexivity.
Qed.

Lemma collapsed_point n a : DOM.collapsed (mkRange n a n a) = true.
Proof.
  unfold DOM.collapsed. simpl. rewrite Nat.eqb_refl.
  destruct n; simpl; [reflexivity|]. rewrite eqPath_refl. reflexivity.
Qed.

Lemma textsAfter_tail k x l : textsAfter k (x :: l) -> textsAfter k l.
Proof. intros H q s b Hin. apply (H q s b). right. exact Hin. Qed.

Lemma textBefore_start n : textBefore n [] 0 = EmptyString.
Proof. destruct n as [t cs|s|s]; simpl; try reflexivity. destruct s; reflexivity. Qed.

Ltac step_in H :=
  cbn [map process] in H; unfold under in H; cbn [fst snd app] in H.

Section Scan.

Variables (root : Node) (sel : SerializedSelection).

(** After the start was found, an end offset beyond the text that is
    left is never matched: the range stays as it is. *)
Lemma scan_end_beyond :
  forall l c w w',
    foundStart w = true ->
    charIndex w = Z.of_nat c ->
    (Z.of_nat (c + textLen l) < end_ sel)%Z ->
    process dom sel (map (under []) l) w = Normal w' ->
    range w' = range w /\ stop w' = stop w.
Proof.
  induction l as [|[q [t cs|s|s]] l IH]; intros c w w' Hf Hc He Hp; step_in Hp.
  - inversion Hp; auto.
  - destruct (stop w) eqn:Hs; [inversion Hp; subst; auto|].
    cbn [visit] in Hp.
    apply IH with (c := c) in Hp; simpl in *; auto.
    intuition congruence.
  - destruct (stop w) eqn:Hs; [inversion Hp; subst; auto|].
    simpl in He.
    rewrite visit_before_end in Hp by (auto; lia).
    apply IH with (c := c + String.length s) in Hp; simpl in *; auto; try lia.
    intuition congruence.
  - destruct (stop w) eqn:Hs; [inversion Hp; subst; auto|].
    cbn [visit] in Hp.
    apply IH with (c := c) in Hp; simpl in *; auto.
    intuition congruence.
Qed.

(** After the start was found, an end offset within the text that is
    left is matched in a text node after the start, at that offset. *)
Lemma scan_end_found :
  forall l c w w',
    offs (offsetIn root) c l ->
    textsAfter (pointKey (DOM.startContainer (range w)) (startOffset (range w))) l ->
    foundStart w = true ->
    stop w = false ->
    charIndex w = Z.of_nat c ->
    (Z.of_nat c < end_ sel <= Z.of_nat (c + textLen l))%Z ->
    process dom sel (map (under []) l) w = Normal w' ->
    stop w' = true /\
    DOM.startContainer (range w') = DOM.startContainer (range w) /\
    startOffset (range w') = startOffset (range w) /\
    Z.of_nat (offsetPoint root (DOM.endContainer (range w')) (endOffset (range w'))) =
      end_ sel.
Proof.
  induction l as [|[q [t cs|s|s]] l IH]; intros c w w' Ho Ha Hf Hs Hc He Hp;
    step_in Hp; rewrite ?Hs in Hp.
  - simpl in He. lia.
  - apply textsAfter_tail in Ha. cbn [visit] in Hp.
    apply IH with (c := c) in Hp; simpl in *; auto.
  - simpl in He, Ho. destruct Ho as [Hk Ho].
    destruct (Z_le_gt_dec (end_ sel) (Z.of_nat (c + String.length s))) as [Hin|Hout].
    + rewrite visit_end in Hp; auto; try lia.
      * rewrite process_stopped in Hp by reflexivity. inversion Hp; subst; simpl.
        repeat split; auto.
        unfold offsetPoint. simpl. fold (offsetIn root q (Z.to_nat (end_ sel - charIndex w))).
        rewrite Hk by lia. lia.
      * unfold comparePoints. simpl.
        rewrite (Ha q s _ (or_introl eq_refl)). discriminate.
    + rewrite visit_before_end in Hp by (auto; lia).
      apply textsAfter_tail in Ha.
      apply IH with (c := c + String.length s) in Hp; simpl; auto; lia.
  - apply textsAfter_tail in Ha. cbn [visit] in Hp.
    apply IH with (c := c) in Hp; simpl in *; auto.
Qed.

(** Looking for the start from the range collapsed at the root's point
    0, with an offset within the text that is left. *)
Lemma scan_start :
  forall l c w w',
    offs (offsetIn root) c l ->
    sortedTexts l ->
    textsAfter [0] l ->
    foundStart w = false ->
    stop w = false ->
    range w = mkRange (Ref [] root) 0 (Ref [] root) 0 ->
    charIndex w = Z.of_nat c ->
    ((Z.of_nat c < start sel)%Z \/ (c = 0 /\ start sel = 0%Z)) ->
    (start sel <= Z.of_nat (c + textLen l))%Z ->
    (start sel <= end_ sel)%Z ->
    process dom sel (map (under []) l) w = Normal w' ->
    Z.of_nat (offsetPoint root (DOM.startContainer (range w')) (startOffset (range w'))) =
      start sel /\
    validOffset (DOM.startContainer (range w')) (Z.of_nat (startOffset (range w'))) = true /\
    ((end_ sel <= Z.of_nat (c + textLen l))%Z ->
       Z.of_nat (offsetPoint root (DOM.endContainer (range w')) (endOffset (range w'))) =
         end_ sel /\
       (start sel = end_ sel -> DOM.collapsed (range w') = true)) /\
    ((Z.of_nat (c + textLen l) < end_ sel)%Z -> DOM.collapsed (range w') = true).
Proof.
  induction l as [|[q [t cs|s|s]] l IH];
    intros c w w' Ho Hsort Ha Hf Hs Hr Hc Hlow Hhigh Hse Hp;
    step_in Hp; rewrite ?Hs in Hp.
  - inversion Hp; subst w'. rewrite Hr.
    cbn [DOM.startContainer startOffset DOM.endContainer endOffset].
    unfold offsetPoint, textBeforePoint. rewrite textBefore_start.
    simpl in *.
    repeat split; intros; try lia.
    unfold validOffset. apply andb_true_intro. split; apply Z.leb_le; lia.
  - apply textsAfter_tail in Ha. cbn [visit] in Hp.
    apply IH with (c := c) in Hp; simpl in *; auto.
  - simpl in Hhigh, Ho, Hsort. destruct Ho as [Hk Ho]. destruct Hsort as [Hq Hsort].
    assert (Hgt : forall a, comparePoints (Ref q (Text s)) a
                    (DOM.endContainer (range w)) (endOffset (range w)) = Gt).
    { intros a. rewrite Hr. unfold comparePoints. simpl.
      apply (Ha q s a (or_introl eq_refl)). }
    cbn [textLen].
    destruct (Z_le_gt_dec (start sel) (Z.of_nat (c + String.length s))) as [Hin|Hout].
    + destruct (Z_le_gt_dec (end_ sel) (Z.of_nat (c + String.length s))) as [Hein|Heout].
      * rewrite visit_start_end in Hp; auto; try lia.
        rewrite process_stopped in Hp by reflexivity. inversion Hp; subst w'; simpl.
        unfold offsetPoint. simpl.
        fold (offsetIn root q (Z.to_nat (start sel - charIndex w))).
        fold (offsetIn root q (Z.to_nat (end_ sel - charIndex w))).
        rewrite !Hk by lia.
        split; [lia|]. split; [apply validOffset_text; lia|]. split.
        -- intros _. split; [lia|]. intros E. rewrite E. apply collapsed_point.
        -- intros. lia.
      * rewrite visit_start_only in Hp; auto; try lia.
        set (w1 := mkWalk _ _ _ _ _) in Hp.
        destruct (Z_le_gt_dec (end_ sel) (Z.of_nat (c + (String.length s + textLen l))))
          as [Hfound|Hbeyond].
        -- apply scan_end_found with (c := c + String.length s) in Hp;
             subst w1; simpl; auto; try lia.
           destruct Hp as [_ [HsC [HsO HeO]]]. simpl in HsC, HsO.
           rewrite HsC, HsO. unfold offsetPoint at 1. simpl.
           fold (offsetIn root q (Z.to_nat (start sel - charIndex w))).
           rewrite Hk by lia.
           split; [lia|]. split; [apply validOffset_text; lia|]. split.
           ++ intros _. split; [exact HeO|]. intros. lia.
           ++ intros. lia.
        -- apply scan_end_beyond with (c := c + String.length s) in Hp;
             subst w1; simpl; auto; try lia.
           destruct Hp as [Hrange _]. simpl in Hrange. rewrite Hrange. simpl.
           unfold offsetPoint. simpl.
           fold (offsetIn root q (Z.to_nat (start sel - charIndex w))).
           rewrite Hk by lia.
           split; [lia|]. split; [apply validOffset_text; lia|]. split.
           ++ intros. lia.
           ++ intros _. apply collapsed_point.
    + rewrite visit_before_start in Hp by (auto; lia).
      apply textsAfter_tail in Ha.
      apply IH with (c := c + String.length s) in Hp; simpl; auto; try lia.
      rewrite <- Nat.add_assoc in Hp. exact Hp.
  - apply textsAfter_tail in Ha. cbn [visit] in Hp.
    apply IH with (c := c) in Hp; simpl in *; auto.
Qed.

End Scan.

Lemma length_substring_min (s : string) :
  forall a m, String.length (substring a m s) = Nat.min m (String.length s - a).
Proof.
  induction s as [|c s IH]; intros a m; simpl.
  - destruct a, m; reflexivity.
  - destruct a as [|a]; simpl.
    + destruct m as [|m]; simpl; [reflexivity|]. rewrite IH, Nat.sub_0_r. reflexivity.
    + apply IH.
Qed.

Lemma descendantTextList_firstn k cs :
  String.length (descendantTextList (firstn k cs)) <= String.length (descendantTextList cs).
Proof.
  rewrite <- (firstn_skipn k cs) at 2.
  rewrite descendantTextList_app, length_append. lia.
Qed.

(** The text before a boundary point is part of the text of the tree. *)
Lemma textBefore_le : forall p n k,
  String.length (textBefore n p k) <= String.length (descendantText n).
Proof.
  induction p as [|i p IH]; intros [t cs|s|s] k; simpl; try lia.
  - apply (descendantTextList_firstn k cs).
  - rewrite length_substring_min. lia.
  - change ((fix go (l : list Node) : string :=
               match l with
               | [] => EmptyString
               | c :: l' => (descendantText c ++ go l')%string
               end) cs) with (descendantTextList cs).
    destruct (nth_error cs i) as [c|] eqn:E.
    + apply nth_error_split in E. destruct E as [l1 [l2 [-> Hl]]].
      rewrite firstn_app, <- Hl, Nat.sub_diag, firstn_all. simpl. rewrite app_nil_r.
      rewrite descendantTextList_app. simpl. rewrite !length_append.
      specialize (IH c k). lia.
    + rewrite length_append. simpl. pose proof (descendantTextList_firstn i cs). lia.
Qed.

Lemma offsetPoint_le root n o :
  offsetPoint root n o <= String.length (descendantText root).
Proof.
  unfold offsetPoint. destruct n as [|p nd]; simpl; [lia|]. apply textBefore_le.
Qed.

Lemma collapsed_offsets root r :
  DOM.collapsed r = true ->
  offsetPoint root (DOM.endContainer r) (endOffset r) =
  offsetPoint root (DOM.startContainer r) (startOffset r).
Proof.
  unfold DOM.collapsed. intros H. apply andb_prop in H. destruct H as [Hn Ho].
  apply Nat.eqb_eq in Ho. rewrite <- Ho. unfold offsetPoint.
  destruct (DOM.startContainer r) as [|p a], (DOM.endContainer r) as [|q b];
    simpl in *; try discriminate; [reflexivity|].
  apply eqPath_eq in Hn. rewrite Hn. reflexivity.
Qed.

Lemma after_root_start p o : lexCompare (p ++ [o]) [0] <> Lt.
Proof.
  destruct p as [|i p]; simpl.
  - destruct o; discriminate.
  - destruct i; simpl; [|discriminate]. destruct (p ++ [o]); discriminate.
Qed.

(** [exportSelection] on the standard platform, for a range whose start
    lies in the root and has a valid offset. *)
Lemma export_dom_ref root p nd o eC eO rest :
  validOffset (Ref p nd) (Z.of_nat o) = true ->
  let range := mkRange (Ref p nd) o eC eO in
  let clone := mkRange (Ref [] root) 0 (Ref p nd) o in
  exportSelection dom (Some root) (Some (range :: rest)) =
  Normal (Some {| start := Z.of_nat (String.length (Range_toString root clone));
                  end_ := Z.of_nat (String.length (Range_toString root clone)) +
                          Z.of_nat (String.length (Range_toString root range));
                  startContainer := Some (Ref p nd);
                  endContainer := Some eC;
                  collapsed := DOM.collapsed range |}).
Proof.
  intros Hv range clone. unfold exportSelection. simpl.
  unfold Range_setEnd. simpl. rewrite Hv, Nat2Z.id.
  unfold comparePoints. simpl.
  pose proof (after_root_start p o) as Hn.
  destruct (lexCompare (p ++ [o]) [0]); try congruence; reflexivity.
Qed.

Lemma toString_length root r :
  String.length (Range_toString root r) =
  offsetPoint root (DOM.endContainer r) (endOffset r) -
  offsetPoint root (DOM.startContainer r) (startOffset r).
Proof.
  unfold Range_toString, offsetPoint. rewrite length_substring_min. lia.
Qed.

(** The offsets that [exportSelection] returns, as text offsets of the
    two boundary points. *)
Lemma export_dom_offsets root r rest :
  validOffset (DOM.startContainer r) (Z.of_nat (startOffset r)) = true ->
  let a := offsetPoint root (DOM.startContainer r) (startOffset r) in
  let b := offsetPoint root (DOM.endContainer r) (endOffset r) in
  exportSelection dom (Some root) (Some (r :: rest)) =
  Normal (Some {| start := Z.of_nat a;
                  end_ := Z.of_nat a + Z.of_nat (b - a);
                  startContainer := Some (DOM.startContainer r);
                  endContainer := Some (DOM.endContainer r);
                  collapsed := DOM.collapsed r |}).
Proof.
  destruct r as [sC sO eC eO].
  cbn [DOM.startContainer startOffset DOM.endContainer endOffset]. intros Hv.
  destruct sC as [|p nd].
  - unfold exportSelection. simpl. unfold Range_setEnd. simpl. rewrite Hv. simpl.
    rewrite !toString_length. reflexivity.
  - rewrite export_dom_ref by exact Hv. rewrite !toString_length.
    cbn [DOM.startContainer startOffset DOM.endContainer endOffset].
    replace (offsetPoint root (Ref [] root) 0) with 0
      by (unfold offsetPoint, textBeforePoint; rewrite textBefore_start; reflexivity).
    rewrite !Nat.sub_0_r. reflexivity.
Qed.

Lemma export_dom_invalid root r rest :
  validOffset (DOM.startContainer r) (Z.of_nat (startOffset r)) = false ->
  exportSelection dom (Some root) (Some (r :: rest)) = Throw IndexSizeError.
Proof.
  intros Hv. unfold exportSelection. simpl. unfold Range_setEnd. rewrite Hv. reflexivity.
Qed.

Lemma initialRange_dom root :
  initialRange dom (Ref [] root) = Normal (mkRange (Ref [] root) 0 (Ref [] root) 0).
Proof.
  assert (Hv : validOffset (Ref [] root) 0 = true).
  { unfold validOffset. apply andb_true_intro. split; apply Z.leb_le; lia. }
  unfold initialRange. simpl. unfold Range_setStart. rewrite Hv. reflexivity.
Qed.

(** [importSelection] on the standard platform: the loop ends, nothing
    throws, and the range of the pass becomes the only range of the
    selection. *)
Lemma import_dom root sel live :
  exists w,
    process dom sel (map (under []) (preorder root)) (initialWalk root) = Normal w /\
    importSelection dom (Some root) (Some sel) live =
    Some (true, match live with None => None | Some _ => Some [range w] end).
Proof.
  destruct (process_dom_normal sel (map (under []) (preorder root)) (initialWalk root))
    as [w Hw].
  exists w. split; [exact Hw|].
  unfold importSelection, importSelectionFuel. rewrite initialRange_dom.
  fold (initialWalk root). rewrite walk_root, Hw.
  destruct live; reflexivity.
Qed.

(** Restoring a snapshot whose start lies within the text of the root,
    and exporting again. *)
Lemma restore_export t cs sel rs :
  let root := Element t cs in
  let total := Z.of_nat (String.length (descendantText root)) in
  (0 <= start sel <= end_ sel)%Z ->
  (start sel <= total)%Z ->
  exists r',
    importSelection dom (Some root) (Some sel) (Some rs) = Some (true, Some [r']) /\
    exists snap',
      exportSelection dom (Some root) (Some [r']) = Normal (Some snap') /\
      start snap' = start sel /\
      ((end_ sel <= total)%Z ->
         end_ snap' = end_ sel /\ (start sel = end_ sel -> collapsed snap' = true)) /\
      ((total < end_ sel)%Z -> end_ snap' = start sel /\ collapsed snap' = true).
Proof.
  intros root total H0 Ht.
  destruct (import_dom root sel (Some rs)) as [w [Hw Hi]].
  exists (range w). split; [exact Hi|].
  assert (Hlen : Z.of_nat (0 + textLen (preorder root)) = total).
  { unfold total. rewrite textLen_preorder. reflexivity. }
  assert (Hlow : (Z.of_nat 0 < start sel)%Z \/ (0 = 0 /\ start sel = 0%Z)) by lia.
  assert (Hhigh : (start sel <= Z.of_nat (0 + textLen (preorder root)))%Z) by lia.
  assert (Hse : (start sel <= end_ sel)%Z) by lia.
  pose proof (scan_start root sel (preorder root) 0 (initialWalk root) w
                (offs_preorder root) (sortedTexts_preorder root) (textsAfter_root t cs)
                eq_refl eq_refl eq_refl eq_refl Hlow Hhigh Hse Hw) as [HS [Hv [Hin Hout]]].
  rewrite Hlen in Hin, Hout.
  rewrite export_dom_offsets by exact Hv.
  eexists. split; [reflexivity|]. cbn [start end_ collapsed].
  split; [exact HS|]. split.
  - intros He. destruct (Hin He) as [HE Hc]. split; [lia|exact Hc].
  - intros He. specialize (Hout He). split; [|exact Hout].
    rewrite (collapsed_offsets root _ Hout). lia.
Qed.

End Restore.

(** * Properties of [exportSelection] and [importSelection] *)

Import WalkSpec TreeFacts Restore Examples.

(** ** Helper lemmas *)

Lemma visitText_offsets P s1 s2 n w :
  start s1 = start s2 -> end_ s1 = end_ s2 ->
  visitText P s1 n w = visitText P s2 n w.
Proof. intros Hs He. unfold visitText. rewrite Hs, He. reflexivity. Qed.

Lemma iteration_offsets P s1 s2 n st w :
  start s1 = start s2 -> end_ s1 = end_ s2 ->
  iteration P s1 n st w = iteration P s2 n st w.
Proof.
  intros Hs He. unfold iteration.
  rewrite (visitText_offsets P s1 s2) by assumption. reflexivity.
Qed.

Lemma walk_offsets P s1 s2 :
  start s1 = start s2 -> end_ s1 = end_ s2 ->
  forall fuel nd st w, walk P fuel s1 nd st w = walk P fuel s2 nd st w.
Proof.
  intros Hs He. induction fuel as [|fuel IH]; intros nd st w; simpl.
  - reflexivity.
  - destruct (stop w); [reflexivity|]. destruct nd as [n|]; [|reflexivity].
    rewrite (iteration_offsets P s1 s2) by assumption.
    destruct (iteration P s2 n st w) as [[[nd' st'] w']|e]; [apply IH|reflexivity].
Qed.

Lemma walk_stopped P sel fuel nd st w :
  stop w = true -> walk P fuel sel nd st w = Some (Normal w).
Proof. intros H. destruct fuel; simpl; rewrite H; reflexivity. Qed.

Lemma visit_visited P sel n w w' :
  visit P sel n w = Normal w' -> visited w' = visited w ++ [n].
Proof.
  unfold visit. intros H.
  destruct n as [|p [t cs|s|s]]; try (inversion H; reflexivity).
  apply visitText_stop_visited in H. exact H.
Qed.

(** The nodes the pass was entered with are an initial part of the list,
    and all of it unless the pass was stopped. *)
Lemma process_visited P sel :
  forall l w w',
    process P sel l w = Normal w' ->
    exists seen rest, l = seen ++ rest /\
                      visited w' = visited w ++ seen /\
                      (stop w' = false -> rest = []).
Proof.
  induction l as [|n l IH]; intros w w' H; simpl in H.
  - inversion H; subst. exists [], []. rewrite !app_nil_r. repeat split; auto.
  - destruct (stop w) eqn:Hs.
    + inversion H; subst. exists [], (n :: l). rewrite !app_nil_r.
      repeat split; auto. congruence.
    + destruct (visit P sel n w) as [w1|e] eqn:Hv; [|discriminate].
      apply visit_visited in Hv.
      destruct (IH _ _ H) as [seen [rest [H1 [H2 H3]]]].
      exists (n :: seen), rest. repeat split; auto.
      * simpl. f_equal. exact H1.
      * rewrite H2, Hv, <- app_assoc. reflexivity.
Qed.

(** What the text-node branch does, on any platform: the start is left
    or set by [setStart]; then the end is left, or set by [setEnd] on this
    node, which also sets [stop] and happens only when [end] lies within
    the node. *)
Lemma visitText_inv P sel n w w' :
  visitText P sel n w = Normal w' ->
  exists r1,
    (r1 = range w \/
     setStart P (range w) n (start sel - charIndex w)%Z = Normal r1) /\
    ((range w' = r1 /\ stop w' = stop w) \/
     (setEnd P r1 n (end_ sel - charIndex w)%Z = Normal (range w') /\
      stop w' = true /\
      (charIndex w <= end_ sel <= charIndex w + textLength n)%Z)) /\
    charIndex w' = (charIndex w + textLength n)%Z /\
    visited w' = visited w.
Proof.
  unfold visitText. intros H.
  destruct (negb (foundStart w) && (charIndex w <=? start sel)%Z &&
            (start sel <=? charIndex w + textLength n)%Z).
  - destruct (setStart P (range w) n (start sel - charIndex w)%Z) as [r|e] eqn:Hr;
      simpl in H; [|discriminate].
    exists r. split; [right; reflexivity|].
    destruct ((charIndex w <=? end_ sel)%Z &&
              (end_ sel <=? charIndex w + textLength n)%Z) eqn:Hc; simpl in H.
    + destruct (setEnd P r n (end_ sel - charIndex w)%Z) as [r'|e] eqn:Hr';
        simpl in H; [|discriminate].
      inversion H; subst w'; simpl.
      apply andb_prop in Hc. destruct Hc as [Hc1 Hc2]. apply Z.leb_le in Hc1, Hc2.
      repeat split; auto.
    + inversion H; subst w'; simpl. repeat split; auto.
  - simpl in H. exists (range w). split; [left; reflexivity|].
    destruct (foundStart w && (charIndex w <=? end_ sel)%Z &&
              (end_ sel <=? charIndex w + textLength n)%Z) eqn:Hc; simpl in H.
    + destruct (setEnd P (range w) n (end_ sel - charIndex w)%Z) as [r'|e] eqn:Hr';
        simpl in H; [|discriminate].
      inversion H; subst w'; simpl.
      apply andb_prop in Hc. destruct Hc as [Hc Hc2]. apply andb_prop in Hc.
      destruct Hc as [_ Hc1]. apply Z.leb_le in Hc1, Hc2.
      repeat split; auto.
    + inversion H; subst w'; simpl. repeat split; auto.
Qed.

Lemma setStart_containers r n off r' :
  Range_setStart r n off = Normal r' ->
  DOM.startContainer r' = n /\ startOffset r' = Z.to_nat off /\
  (DOM.endContainer r' = n \/ DOM.endContainer r' = DOM.endContainer r).
Proof.
  unfold Range_setStart. destruct (validOffset n off); [|discriminate].
  destruct (comparePoints _ _ _ _); intros H; inversion H; simpl; auto.
Qed.

Lemma setEnd_containers r n off r' :
  Range_setEnd r n off = Normal r' ->
  DOM.endContainer r' = n /\ endOffset r' = Z.to_nat off /\
  (DOM.startContainer r' = n \/ DOM.startContainer r' = DOM.startContainer r).
Proof.
  unfold Range_setEnd. destruct (validOffset n off); [|discriminate].
  destruct (comparePoints _ _ _ _); intros H; inversion H; simpl; auto.
Qed.

(** The containers of the range are nodes the pass has met, or those it
    started with. *)
Lemma visit_containers (Q : NodeRef -> Prop) sel n w w' :
  visit dom sel n w = Normal w' ->
  Q n ->
  Q (DOM.startContainer (range w)) /\ Q (DOM.endContainer (range w)) ->
  Q (DOM.startContainer (range w')) /\ Q (DOM.endContainer (range w')).
Proof.
  intros H Hn [Hs He]. unfold visit in H.
  destruct n as [|p [t cs|s|s]]; try (inversion H; subst w'; simpl; auto; fail).
  apply visitText_inv in H. cbn [range] in H.
  destruct H as [r1 [H1 [H2 _]]].
  assert (G : Q (DOM.startContainer r1) /\ Q (DOM.endContainer r1)).
  { destruct H1 as [->|H1]; [auto|].
    apply setStart_containers in H1. destruct H1 as [E1 [_ [E2|E2]]];
      rewrite E1, E2; auto. }
  destruct G as [G1 G2].
  destruct H2 as [[-> _]|[H2 _]]; [auto|].
  apply setEnd_containers in H2. destruct H2 as [E1 [_ [E2|E2]]];
    rewrite E1, E2; auto.
Qed.

Lemma process_containers (Q : NodeRef -> Prop) sel :
  forall l w w',
    process dom sel l w = Normal w' ->
    Forall Q l ->
    Q (DOM.startContainer (range w)) /\ Q (DOM.endContainer (range w)) ->
    Q (DOM.startContainer (range w')) /\ Q (DOM.endContainer (range w')).
Proof.
  induction l as [|n l IH]; intros w w' H HF Hw; simpl in H.
  - inversion H; subst; exact Hw.
  - destruct (stop w); [inversion H; subst; exact Hw|].
    destruct (visit dom sel n w) as [w1|e] eqn:Hv; [|discriminate].
    inversion HF as [|? ? Hn HF']; subst.
    apply (IH w1 w' H HF'). apply (visit_containers Q sel n w w1 Hv Hn Hw).
Qed.

Lemma preorderList_inTree t cs0 :
  forall rest done,
    cs0 = done ++ rest ->
    Forall (fun c => forall q m, In (q, m) (preorder c) -> nodeAt c q = Some m) rest ->
    forall q m, In (q, m) (preorderList (List.length done) rest) ->
                nodeAt (Element t cs0) q = Some m.
Proof.
  induction rest as [|c rest IH]; intros done Hcs HF q m Hin; simpl in Hin.
  - contradiction.
  - inversion HF as [|? ? Hc HF']; subst.
    apply in_app_iff in Hin. destruct Hin as [Hin|Hin].
    + apply in_map_iff in Hin. destruct Hin as [[q' m'] [E Hin]].
      unfold below in E. simpl in E. inversion E; subst.
      simpl. rewrite nth_error_app2, Nat.sub_diag by lia. simpl.
      apply Hc. exact Hin.
    + apply (IH (done ++ [c])).
      * rewrite <- app_assoc. reflexivity.
      * exact HF'.
      * rewrite length_app. simpl. rewrite Nat.add_1_r. exact Hin.
Qed.

(** Every entry of the pre-order list names a node of the tree. *)
Lemma preorder_inTree : forall n q m, In (q, m) (preorder n) -> nodeAt n q = Some m.
Proof.
  induction n as [t cs IH|s|s] using Node_forall_ind; intros q m Hin.
  - rewrite preorder_Element in Hin. destruct Hin as [E|Hin].
    + inversion E; subst. reflexivity.
    + apply (preorderList_inTree t cs cs [] eq_refl IH q m Hin).
  - destruct Hin as [E|[]]. inversion E; subst. reflexivity.
  - destruct Hin as [E|[]]. inversion E; subst. reflexivity.
Qed.

(** The range that [importSelection] builds lies inside the root. *)
Lemma process_inside root sel w :
  process dom sel (map (under []) (preorder root)) (initialWalk root) = Normal w ->
  rangeInside root (range w).
Proof.
  intros H. unfold rangeInside.
  apply (process_containers (inTree root) sel _ _ _ H).
  - apply Forall_forall. intros n Hin. apply in_map_iff in Hin.
    destruct Hin as [[q m] [E Hin]]. subst n. unfold under. simpl.
    apply preorder_inTree. exact Hin.
  - simpl. auto.
Qed.

(** When a pass sets [stop], it does so at a text node, the last one it
    meets, by setting the end of the range on that node at the local
    offset of [end]. *)
Lemma visit_sets_stop sel n w w' :
  visit dom sel n w = Normal w' ->
  stop w = false ->
  stop w' = true ->
  exists q s,
    n = Ref q (Text s) /\
    DOM.endContainer (range w') = n /\
    endOffset (range w') = Z.to_nat (end_ sel - charIndex w) /\
    (charIndex w <= end_ sel <= charIndex w + Z.of_nat (String.length s))%Z.
Proof.
  intros H Hs Hs'. unfold visit in H.
  destruct n as [|p [t cs|s|s]];
    try (inversion H; subst w'; simpl in Hs'; congruence).
  apply visitText_inv in H. cbn [range stop charIndex] in H.
  destruct H as [r1 [_ [[[_ E]|[H2 [_ Hb]]] _]]]; [congruence|].
  apply setEnd_containers in H2. destruct H2 as [E1 [E2 _]].
  exists p, s. auto.
Qed.

Lemma process_stop_last sel :
  forall l w w',
    process dom sel l w = Normal w' ->
    stop w = false ->
    stop w' = true ->
    exists seen q s rest,
      l = seen ++ Ref q (Text s) :: rest /\
      visited w' = visited w ++ seen ++ [Ref q (Text s)] /\
      DOM.endContainer (range w') = Ref q (Text s) /\
      endOffset (range w') =
        Z.to_nat (end_ sel - (charIndex w' - Z.of_nat (String.length s))) /\
      (charIndex w' - Z.of_nat (String.length s) <= end_ sel <= charIndex w')%Z.
Proof.
  induction l as [|n l IH]; intros w w' H Hs Hs'; simpl in H.
  - inversion H; subst. congruence.
  - rewrite Hs in H.
    destruct (visit dom sel n w) as [w1|e] eqn:Hv; [|discriminate].
    pose proof (visit_visited _ _ _ _ _ Hv) as Hvis.
    destruct (stop w1) eqn:Hs1.
    + rewrite process_stopped in H by exact Hs1. inversion H; subst w'.
      destruct (visit_sets_stop sel n w w1 Hv Hs Hs1) as [q [s [-> [E1 [E2 Hb]]]]].
      assert (Hci : charIndex w1 = (charIndex w + Z.of_nat (String.length s))%Z).
      { unfold visit in Hv. apply visitText_inv in Hv.
        destruct Hv as [_ [_ [_ [Hci _]]]]. exact Hci. }
      exists [], q, s, l. rewrite Hci.
      replace (charIndex w + Z.of_nat (String.length s) - Z.of_nat (String.length s))%Z
        with (charIndex w) by lia.
      repeat split; auto; lia.
    + destruct (IH w1 w' H Hs1 Hs') as [seen [q [s [rest [E1 [E2 [E3 [E4 E5]]]]]]]].
      exists (n :: seen), q, s, rest. rewrite E1, E2, Hvis, <- app_assoc.
      repeat split; auto; lia.
Qed.

(** ** The specification's sample cases *)

(** Boundary exactness: {0,5} selects "Hello", {6,11} selects "World",
    {11,11} is a cursor after the final "d". *)
Example boundary_exactness :
  importSelection dom (Some helloWorld) (Some (snapshot 0 5)) (Some []) =
    Some (true, Some [mkRange (Ref [0] (Text "Hello World")) 0
                              (Ref [0] (Text "Hello World")) 5]) /\
  importSelection dom (Some helloWorld) (Some (snapshot 6 11)) (Some []) =
    Some (true, Some [mkRange (Ref [0] (Text "Hello World")) 6
                              (Ref [0] (Text "Hello World")) 11]) /\
  importSelection dom (Some helloWorld) (Some (snapshot 11 11)) (Some []) =
    Some (true, Some [mkRange (Ref [0] (Text "Hello World")) 11
                              (Ref [0] (Text "Hello World")) 11]).
Proof. repeat split. Qed.

(** Multi-node span: {3,9} runs from offset 3 of "Hello " to offset 3 of
    "World". *)
Example multi_node_span :
  importSelection dom (Some twoBlocks) (Some (snapshot 3 9)) (Some []) =
  Some (true, Some [mkRange (Ref [0; 0] (Text "Hello ")) 3 (Ref [1; 0] (Text "World")) 3]).
Proof. reflexivity. Qed.

(** Null inputs: no snapshot, or no selection to export. *)
Example null_inputs :
  importSelection dom (Some helloWorld) None
    (Some [mkRange (Ref [] helloWorld) 0 (Ref [] helloWorld) 1]) =
    Some (false, Some [mkRange (Ref [] helloWorld) 0 (Ref [] helloWorld) 1]) /\
  exportSelection dom (Some helloWorld) (Some []) = Normal None /\
  exportSelection dom (Some helloWorld) None = Normal None.
Proof. repeat split. Qed.

(** ** Export *)

(** C5: on the standard platform, for a live range whose start lies in
    the root, [exportSelection] returns [start] = the length of the text
    of the clone that runs from the beginning of the root's content to
    the range's start, [end] = [start] + the length of the range's own
    text, and [collapsed] = the range's collapsed flag. *)
Theorem export_formula (root : Node) (p : Path) (nd : Node) (o : nat)
    (eC : NodeRef) (eO : nat) (rest : list Range) :
  validOffset (Ref p nd) (Z.of_nat o) = true ->
  let range := mkRange (Ref p nd) o eC eO in
  let clone := mkRange (Ref [] root) 0 (Ref p nd) o in
  let startLength := Z.of_nat (String.length (toString dom root clone)) in
  exportSelection dom (Some root) (Some (range :: rest)) =
  Normal (Some {| start := startLength;
                  end_ := startLength + Z.of_nat (String.length (toString dom root range));
                  startContainer := Some (Ref p nd);
                  endContainer := Some eC;
                  collapsed := DOM.collapsed range |}).
Proof. intros Hv. apply export_dom_ref. exact Hv. Qed.

Lemma export_formula_witness :
  validOffset (Ref [0; 0] (Text "Hello ")) 3 = true /\
  exportSelection dom (Some twoBlocks)
    (Some [mkRange (Ref [0; 0] (Text "Hello ")) 3 (Ref [1; 0] (Text "World")) 3]) =
  Normal (Some {| start := 3; end_ := 3 + 6;
                  startContainer := Some (Ref [0; 0] (Text "Hello "));
                  endContainer := Some (Ref [1; 0] (Text "World"));
                  collapsed := false |}).
Proof.
  split; [reflexivity|].
  apply (export_formula twoBlocks [0; 0] (Text "Hello ") 3 (Ref [1; 0] (Text "World")) 3 []).
  reflexivity.
Defined.

Lemma export_dom_inv root live snap :
  exportSelection dom (Some root) live = Normal (Some snap) ->
  exists r rest,
    live = Some (r :: rest) /\
    validOffset (DOM.startContainer r) (Z.of_nat (startOffset r)) = true /\
    start snap = Z.of_nat (offsetPoint root (DOM.startContainer r) (startOffset r)) /\
    end_ snap = (Z.of_nat (offsetPoint root (DOM.startContainer r) (startOffset r)) +
                 Z.of_nat (offsetPoint root (DOM.endContainer r) (endOffset r) -
                           offsetPoint root (DOM.startContainer r) (startOffset r)))%Z /\
    collapsed snap = DOM.collapsed r.
Proof.
  intros H. destruct live as [[|r rest]|]; try discriminate.
  exists r, rest. split; [reflexivity|].
  destruct (validOffset (DOM.startContainer r) (Z.of_nat (startOffset r))) eqn:Hv.
  - rewrite export_dom_offsets in H by exact Hv. inversion H; subst snap. simpl. auto.
  - rewrite export_dom_invalid in H by exact Hv. discriminate.
Qed.

Lemma export_dom_bounds root live snap :
  exportSelection dom (Some root) live = Normal (Some snap) ->
  (0 <= start snap <= end_ snap)%Z /\
  (end_ snap <= Z.of_nat (String.length (descendantText root)))%Z /\
  (collapsed snap = true -> start snap = end_ snap).
Proof.
  intros H. apply export_dom_inv in H.
  destruct H as [r [rest [_ [_ [Hs [He Hc]]]]]].
  pose proof (offsetPoint_le root (DOM.startContainer r) (startOffset r)).
  pose proof (offsetPoint_le root (DOM.endContainer r) (endOffset r)).
  rewrite Hs, He, Hc. repeat split; try lia.
  intros Hcol. rewrite (collapsed_offsets root r Hcol). lia.
Qed.

(** C6, as amended: every snapshot that [exportSelection] returns has
    0 <= start <= end, and end is at most the length of the root's text;
    when its [collapsed] field is true, start = end.  The converse does
    not hold: a range that is not collapsed may hold no text. *)
Theorem export_invariant (root : Node) (live : LiveSelection) (snap : SerializedSelection) :
  exportSelection dom (Some root) live = Normal (Some snap) ->
  (0 <= start snap <= end_ snap)%Z /\
  (end_ snap <= Z.of_nat (String.length (descendantText root)))%Z /\
  (collapsed snap = true -> start snap = end_ snap).
Proof. apply export_dom_bounds. Qed.

Lemma export_invariant_witness :
  exportSelection dom (Some helloWorld)
    (Some [mkRange (Ref [0] (Text "Hello World")) 6 (Ref [0] (Text "Hello World")) 11]) =
  Normal (Some (mkSerializedSelection 6 11 (Some (Ref [0] (Text "Hello World")))
                  (Some (Ref [0] (Text "Hello World"))) false)) /\
  (0 <= 6 <= 11)%Z /\
  (11 <= Z.of_nat (String.length (descendantText helloWorld)))%Z /\
  (false = true -> 6 = 11)%Z.
Proof.
  split; [reflexivity|].
  apply (export_invariant helloWorld
           (Some [mkRange (Ref [0] (Text "Hello World")) 6 (Ref [0] (Text "Hello World")) 11])
           (mkSerializedSelection 6 11 (Some (Ref [0] (Text "Hello World")))
              (Some (Ref [0] (Text "Hello World"))) false)).
  reflexivity.
Defined.

(** C6, counterexample: in [<p>ab<br>cd</p>] the range that selects the
    [<br>] element, from (p, 1) to (p, 2), is not collapsed, yet it holds
    no text: the snapshot has start = end = 2 and collapsed = false. *)
Lemma collapsed_flag_counterexample :
  exportSelection dom (Some withBreak)
    (Some [mkRange (Ref [] withBreak) 1 (Ref [] withBreak) 2]) =
  Normal (Some {| start := 2; end_ := 2;
                  startContainer := Some (Ref [] withBreak);
                  endContainer := Some (Ref [] withBreak);
                  collapsed := false |}).
Proof. reflexivity. Qed.

(** ** Round trip *)

(** C1: when [exportSelection] returns a snapshot for a live selection
    that lies inside a root element, [importSelection] of that snapshot on
    the same root, whatever the live selection has become in between,
    returns true and replaces the selection by one range inside the root;
    exporting the restored selection returns the same start and end
    offsets. *)
Theorem roundtrip_offsets (t : string) (cs : list Node)
    (r : Range) (rest rs : list Range) (snap : SerializedSelection) :
  rangeInside (Element t cs) r ->
  exportSelection dom (Some (Element t cs)) (Some (r :: rest)) = Normal (Some snap) ->
  exists r',
    importSelection dom (Some (Element t cs)) (Some snap) (Some rs) =
      Some (true, Some [r']) /\
    rangeInside (Element t cs) r' /\
    exists snap',
      exportSelection dom (Some (Element t cs)) (Some [r']) = Normal (Some snap') /\
      start snap' = start snap /\
      end_ snap' = end_ snap.
Proof.
  intros _ H. pose proof (export_dom_bounds _ _ _ H) as [H0 [Ht _]].
  destruct (restore_export t cs snap rs) as [r' [Hi [snap' [He [Hs [Hin _]]]]]];
    try lia.
  exists r'. split; [exact Hi|]. split.
  - destruct (import_dom (Element t cs) snap (Some rs)) as [w [Hw Hiw]].
    rewrite Hi in Hiw. inversion Hiw; subst r'.
    apply (process_inside _ _ _ Hw).
  - exists snap'. split; [exact He|]. split; [exact Hs|].
    apply Hin. exact Ht.
Qed.

Lemma roundtrip_offsets_witness :
  rangeInside twoBlocks (mkRange (Ref [] twoBlocks) 1 (Ref [1; 0] (Text "World")) 3) /\
  exportSelection dom (Some twoBlocks)
    (Some [mkRange (Ref [] twoBlocks) 1 (Ref [1; 0] (Text "World")) 3]) =
  Normal (Some (mkSerializedSelection 6 9 (Some (Ref [] twoBlocks))
                  (Some (Ref [1; 0] (Text "World"))) false)) /\
  exists r',
    importSelection dom (Some twoBlocks)
      (Some (mkSerializedSelection 6 9 (Some (Ref [] twoBlocks))
               (Some (Ref [1; 0] (Text "World"))) false))
      (Some [mkRange (Ref [0; 0] (Text "Hello ")) 2 (Ref [0; 0] (Text "Hello ")) 2]) =
    Some (true, Some [r']) /\
    rangeInside twoBlocks r' /\
    exists snap',
      exportSelection dom (Some twoBlocks) (Some [r']) = Normal (Some snap') /\
      start snap' = 6%Z /\ end_ snap' = 9%Z.
Proof.
  split; [split; reflexivity|]. split; [reflexivity|].
  apply (roundtrip_offsets "div"
           [Element "p" [Text "Hello "]; Element "b" [Text "World"]]
           (mkRange (Ref [] twoBlocks) 1 (Ref [1; 0] (Text "World")) 3) []
           [mkRange (Ref [0; 0] (Text "Hello ")) 2 (Ref [0; 0] (Text "Hello ")) 2]
           (mkSerializedSelection 6 9 (Some (Ref [] twoBlocks))
              (Some (Ref [1; 0] (Text "World"))) false)).
  - split; reflexivity.
  - reflexivity.
Defined.

(** C9: a snapshot with start = end = k, for k between 0 and the length
    of the root's text, is restored as a collapsed selection at that
    point: [importSelection] returns true and exporting again yields
    start = end = k with the collapsed flag set. *)
Theorem collapsed_restore (t : string) (cs : list Node) (k : Z)
    (sel : SerializedSelection) (rs : list Range) :
  start sel = k -> end_ sel = k ->
  (0 <= k <= Z.of_nat (String.length (descendantText (Element t cs))))%Z ->
  exists r',
    importSelection dom (Some (Element t cs)) (Some sel) (Some rs) = Some (true, Some [r']) /\
    DOM.collapsed r' = true /\
    exists snap',
      exportSelection dom (Some (Element t cs)) (Some [r']) = Normal (Some snap') /\
      start snap' = k /\ end_ snap' = k /\ collapsed snap' = true.
Proof.
  intros Hs He Hk.
  destruct (restore_export t cs sel rs) as [r' [Hi [snap' [Hx [Hs' [Hin _]]]]]];
    try lia.
  destruct Hin as [He' Hc]; [lia|].
  exists r'. split; [exact Hi|].
  assert (Hcol : collapsed snap' = true) by (apply Hc; lia).
  split.
  - apply export_dom_inv in Hx. destruct Hx as [r [rest [E [_ [_ [_ Hr]]]]]].
    inversion E; subst r. rewrite <- Hr. exact Hcol.
  - exists snap'. repeat split; try assumption; lia.
Qed.

Lemma collapsed_restore_witness :
  start (snapshot 6 6) = 6%Z /\ end_ (snapshot 6 6) = 6%Z /\
  (0 <= 6 <= Z.of_nat (String.length (descendantText twoBlocks)))%Z /\
  exists r',
    importSelection dom (Some twoBlocks) (Some (snapshot 6 6)) (Some []) =
    Some (true, Some [r']) /\
    DOM.collapsed r' = true /\
    exists snap',
      exportSelection dom (Some twoBlocks) (Some [r']) = Normal (Some snap') /\
      start snap' = 6%Z /\ end_ snap' = 6%Z /\ collapsed snap' = true.
Proof.
  split; [reflexivity|]. split; [reflexivity|]. split; [simpl; lia|].
  apply (collapsed_restore "div"
           [Element "p" [Text "Hello "]; Element "b" [Text "World"]] 6 (snapshot 6 6) []).
  - reflexivity.
  - reflexivity.
  - simpl. lia.
Defined.

(** C3, as amended: when the snapshot's end exceeds the length of the
    root's text and its start does not, [importSelection] does not throw
    and returns true, and the end is never set: the selection it applies
    is collapsed at the start boundary, so exporting again yields
    start = end = the snapshot's start. *)
Theorem import_end_beyond (t : string) (cs : list Node)
    (sel : SerializedSelection) (rs : list Range) :
  (0 <= start sel <= Z.of_nat (String.length (descendantText (Element t cs))))%Z ->
  (Z.of_nat (String.length (descendantText (Element t cs))) < end_ sel)%Z ->
  exists r',
    importSelection dom (Some (Element t cs)) (Some sel) (Some rs) = Some (true, Some [r']) /\
    exists snap',
      exportSelection dom (Some (Element t cs)) (Some [r']) = Normal (Some snap') /\
      start snap' = start sel /\ end_ snap' = start sel /\ collapsed snap' = true.
Proof.
  intros Hs He.
  destruct (restore_export t cs sel rs) as [r' [Hi [snap' [Hx [Hs' [_ Hout]]]]]];
    try lia.
  destruct Hout as [He' Hc]; [lia|].
  exists r'. split; [exact Hi|]. exists snap'. auto.
Qed.

Lemma import_end_beyond_witness :
  (0 <= start (snapshot 6 999) <= Z.of_nat (String.length (descendantText helloWorld)))%Z /\
  (Z.of_nat (String.length (descendantText helloWorld)) < end_ (snapshot 6 999))%Z /\
  exists r',
    importSelection dom (Some helloWorld) (Some (snapshot 6 999)) (Some []) =
    Some (true, Some [r']) /\
    exists snap',
      exportSelection dom (Some helloWorld) (Some [r']) = Normal (Some snap') /\
      start snap' = 6%Z /\ end_ snap' = 6%Z /\ collapsed snap' = true.
Proof.
  split; [simpl; lia|]. split; [simpl; lia|].
  apply (import_end_beyond "div" [Text "Hello World"] (snapshot 6 999) []); simpl; lia.
Defined.

(** C3, counterexample: on the 11 characters of [<div>Hello World</div>]
    the snapshot {start: 0, end: 999} is restored as a cursor in front of
    the "H"; nothing is selected, and exporting again yields end = 0. *)
Lemma clamp_counterexample :
  importSelection dom (Some helloWorld) (Some (snapshot 0 999)) (Some []) =
  Some (true, Some [mkRange (Ref [0] (Text "Hello World")) 0
                            (Ref [0] (Text "Hello World")) 0]) /\
  exportSelection dom (Some helloWorld)
    (Some [mkRange (Ref [0] (Text "Hello World")) 0 (Ref [0] (Text "Hello World")) 0]) =
  Normal (Some {| start := 0; end_ := 0;
                  startContainer := Some (Ref [0] (Text "Hello World"));
                  endContainer := Some (Ref [0] (Text "Hello World"));
                  collapsed := true |}).
Proof. split; reflexivity. Qed.

(** ** The text-node branch of the loop *)

(** The text-node branch on the standard platform, from any state of the
    locals. *)
Lemma visitText_dom (sel : SerializedSelection) (q : Path) (s : string) (w : Walk) :
  let node := Ref q (Text s) in
  let counter := charIndex w in
  let nodeEnd := (counter + Z.of_nat (String.length s))%Z in
  (foundStart w = false -> (counter <= start sel <= nodeEnd)%Z ->
   exists r1 w',
     setStart dom (range w) node (start sel - counter) = Normal r1 /\
     DOM.startContainer r1 = node /\
     startOffset r1 = Z.to_nat (start sel - counter) /\
     visitText dom sel node w = Normal w' /\
     foundStart w' = true /\
     charIndex w' = nodeEnd /\
     ((start sel <= end_ sel)%Z ->
        DOM.startContainer (range w') = node /\
        startOffset (range w') = Z.to_nat (start sel - counter)) /\
     ((counter <= end_ sel <= nodeEnd)%Z ->
        DOM.endContainer (range w') = node /\
        endOffset (range w') = Z.to_nat (end_ sel - counter) /\
        stop w' = true) /\
     (~ (counter <= end_ sel <= nodeEnd)%Z ->
        range w' = r1 /\ stop w' = stop w)) /\
  (foundStart w = true -> (counter <= end_ sel <= nodeEnd)%Z ->
   exists w',
     visitText dom sel node w = Normal w' /\
     DOM.endContainer (range w') = node /\
     endOffset (range w') = Z.to_nat (end_ sel - counter) /\
     stop w' = true /\
     charIndex w' = nodeEnd /\
     foundStart w' = true).
Proof.
  intros node counter nodeEnd. subst node counter nodeEnd. split.
  - intros Hf Hs.
    assert (Hv : validOffset (Ref q (Text s)) (start sel - charIndex w) = true)
      by (apply validOffset_text; lia).
    unfold visitText, textLength. simpl. rewrite Hf. simpl.
    unfold Range_setStart. rewrite Hv.
    assert (G : forall r1,
      DOM.startContainer r1 = Ref q (Text s) ->
      startOffset r1 = Z.to_nat (start sel - charIndex w) ->
      exists w',
        (w1 <- (if ((charIndex w <=? start sel)%Z &&
                    (start sel <=? charIndex w + Z.of_nat (String.length s))%Z)
                then Normal (mkWalk (charIndex w) true (stop w) r1 (visited w))
                else Normal w) ;;
         w2 <- (if foundStart w1 && (charIndex w1 <=? end_ sel)%Z &&
                   (end_ sel <=? charIndex w + Z.of_nat (String.length s))%Z
                then r <- Range_setEnd (range w1) (Ref q (Text s))
                                       (end_ sel - charIndex w1)%Z ;;
                     Normal (mkWalk (charIndex w1) (foundStart w1) true r (visited w1))
                else Normal w1) ;;
         Normal (mkWalk (charIndex w + Z.of_nat (String.length s))
                        (foundStart w2) (stop w2) (range w2) (visited w2))) = Normal w' /\
        foundStart w' = true /\
        charIndex w' = (charIndex w + Z.of_nat (String.length s))%Z /\
        ((start sel <= end_ sel)%Z ->
           DOM.startContainer (range w') = Ref q (Text s) /\
           startOffset (range w') = Z.to_nat (start sel - charIndex w)) /\
        ((charIndex w <= end_ sel <= charIndex w + Z.of_nat (String.length s))%Z ->
           DOM.endContainer (range w') = Ref q (Text s) /\
           endOffset (range w') = Z.to_nat (end_ sel - charIndex w) /\
           stop w' = true) /\
        (~ (charIndex w <= end_ sel <= charIndex w + Z.of_nat (String.length s))%Z ->
           range w' = r1 /\ stop w' = stop w)).
    { intros r1 HC HO. zbool; simpl; zbool; simpl;
        try (unfold Range_setEnd; rewrite (validOffset_text q s) by lia; rewrite HC, HO;
             unfold comparePoints; simpl; rewrite lexCompare_snoc;
             destruct (Nat.compare_spec (Z.to_nat (end_ sel - charIndex w))
                         (Z.to_nat (start sel - charIndex w))); simpl);
        eexists; (split; [reflexivity|]); simpl;
        repeat split; intros; repeat split; try assumption; try reflexivity; try lia. }
    destruct (comparePoints (Ref q (Text s)) (Z.to_nat (start sel - charIndex w))
                (DOM.endContainer (range w)) (endOffset (range w)));
      match goal with
      | |- exists r1 w', Normal ?r = Normal r1 /\ _ =>
          destruct (G r eq_refl eq_refl) as [w' [E Hrest]];
          exists r, w'; split; [reflexivity|]; split; [reflexivity|];
          split; [reflexivity|]; split; [|exact Hrest]
      end;
      revert E; simpl; zbool; simpl; intros E; exact E.
  - intros Hf He.
    assert (Hv : validOffset (Ref q (Text s)) (end_ sel - charIndex w) = true)
      by (apply validOffset_text; lia).
    unfold visitText, textLength. simpl. rewrite Hf. simpl. zbool; simpl.
    unfold Range_setEnd. rewrite Hv.
    destruct (comparePoints (Ref q (Text s)) (Z.to_nat (end_ sel - charIndex w))
                (DOM.startContainer (range w)) (startOffset (range w)));
      simpl; rewrite ?Hf; simpl; eexists; (split; [reflexivity|]); simpl;
      repeat split; try reflexivity; try assumption.
Qed.

(** C2: in the loop of [importSelection], a pass that is entered with a
    text node, running counter [counter] and [nodeEnd = counter + length]:
    when the start is not yet found and counter <= start <= nodeEnd, the
    pass calls [setStart] with the node and the local offset
    start - counter and marks the start found; when the start is found
    (before, or in this very pass) and counter <= end <= nodeEnd, the pass
    sets the range's end to the node at local offset end - counter and
    sets [stop], the node is not replaced from the stack, and the loop
    ends there with these locals; otherwise the loop goes on with the
    node popped from the stack.  Both comparisons are inclusive, so all
    this holds at an empty text node too, where nodeEnd = counter. *)
Theorem text_node_boundaries (sel : SerializedSelection) (q : Path) (s : string)
    (nodeStack : list NodeRef) (w : Walk) :
  let node := Ref q (Text s) in
  let counter := charIndex w in
  let nodeEnd := (counter + Z.of_nat (String.length s))%Z in
  stop w = false ->
  (foundStart w = false -> (counter <= start sel <= nodeEnd)%Z ->
   exists r1 w',
     setStart dom (range w) node (start sel - counter) = Normal r1 /\
     DOM.startContainer r1 = node /\
     startOffset r1 = Z.to_nat (start sel - counter) /\
     iteration dom sel node nodeStack w =
       Normal (if stop w' then (Some node, nodeStack, w')
               else (fst (pop nodeStack), snd (pop nodeStack), w')) /\
     (forall fuel,
        walk dom (S fuel) sel (Some node) nodeStack w =
        if stop w' then Some (Normal w')
        else walk dom fuel sel (fst (pop nodeStack)) (snd (pop nodeStack)) w') /\
     foundStart w' = true /\
     charIndex w' = nodeEnd /\
     visited w' = visited w ++ [node] /\
     ((start sel <= end_ sel)%Z ->
        DOM.startContainer (range w') = node /\
        startOffset (range w') = Z.to_nat (start sel - counter)) /\
     ((counter <= end_ sel <= nodeEnd)%Z ->
        DOM.endContainer (range w') = node /\
        endOffset (range w') = Z.to_nat (end_ sel - counter) /\
        stop w' = true) /\
     (~ (counter <= end_ sel <= nodeEnd)%Z ->
        range w' = r1 /\ stop w' = false)) /\
  (foundStart w = true -> (counter <= end_ sel <= nodeEnd)%Z ->
   exists w',
     iteration dom sel node nodeStack w = Normal (Some node, nodeStack, w') /\
     (forall fuel, walk dom (S fuel) sel (Some node) nodeStack w = Some (Normal w')) /\
     DOM.endContainer (range w') = node /\
     endOffset (range w') = Z.to_nat (end_ sel - counter) /\
     stop w' = true /\
     foundStart w' = true /\
     charIndex w' = nodeEnd /\
     visited w' = visited w ++ [node]).
Proof.
  intros node counter nodeEnd Hstop. subst node counter nodeEnd.
  set (w0 := mkWalk (charIndex w) (foundStart w) (stop w) (range w)
                    (visited w ++ [Ref q (Text s)])).
  assert (Hvisit : visit dom sel (Ref q (Text s)) w =
                   visitText dom sel (Ref q (Text s)) w0) by reflexivity.
  pose proof (iteration_visit dom sel (Ref q (Text s)) nodeStack w Hstop) as Hit.
  rewrite Hvisit in Hit. cbn [childNodes app] in Hit.
  assert (Hwalk : forall fuel w',
            visitText dom sel (Ref q (Text s)) w0 = Normal w' ->
            walk dom (S fuel) sel (Some (Ref q (Text s))) nodeStack w =
            if stop w' then Some (Normal w')
            else walk dom fuel sel (fst (pop nodeStack)) (snd (pop nodeStack)) w').
  { intros fuel w' Hv. cbn [walk]. rewrite Hstop, Hit, Hv.
    destruct (stop w') eqn:Hs'; [|reflexivity].
    apply walk_stopped. exact Hs'. }
  destruct (visitText_dom sel q s w0) as [Ha Hb]. split.
  - intros Hf Hs.
    destruct (Ha Hf Hs) as [r1 [w' [H1 [H2 [H3 [Hv [H4 [H5 [H6 [H7 H8]]]]]]]]]].
    pose proof (visitText_inv _ _ _ _ _ Hv) as [_ [_ [_ [_ Hvis]]]].
    exists r1, w'. split; [exact H1|]. split; [exact H2|]. split; [exact H3|].
    split; [rewrite Hit, Hv; destruct (stop w'); reflexivity|].
    split; [intros fuel; apply Hwalk; exact Hv|].
    split; [exact H4|]. split; [exact H5|]. split; [exact Hvis|].
    split; [exact H6|]. split; [exact H7|].
    intros Hn. destruct (H8 Hn) as [E1 E2]. split; [exact E1|].
    rewrite E2. exact Hstop.
  - intros Hf He.
    destruct (Hb Hf He) as [w' [Hv [H1 [H2 [H3 [H4 H5]]]]]].
    pose proof (visitText_inv _ _ _ _ _ Hv) as [r1 [_ [Hr [_ Hvis]]]].
    exists w'. split; [rewrite Hit, Hv, H3; reflexivity|].
    split; [intros fuel; rewrite (Hwalk fuel w' Hv), H3; reflexivity|].
    split; [exact H1|]. split; [exact H2|]. split; [exact H3|].
    split; [exact H5|]. split; [exact H4|exact Hvis].
Qed.

Lemma text_node_boundaries_witness :
  (exists w',
     walk dom 1 (snapshot 0 0) (Some (Ref [0] (Text EmptyString)))
       [Ref [1] (Text "ab"); Ref [2] (Comment "note")] (initialWalk emptyFirst) =
     Some (Normal w') /\
     foundStart w' = true /\
     DOM.startContainer (range w') = Ref [0] (Text EmptyString) /\
     startOffset (range w') = 0 /\
     DOM.endContainer (range w') = Ref [0] (Text EmptyString) /\
     endOffset (range w') = 0 /\
     stop w' = true) /\
  (exists w',
     walk dom 1 (snapshot 0 2) (Some (Ref [1] (Text "ab"))) [Ref [2] (Comment "note")]
       (mkWalk 0 true false
          (mkRange (Ref [0] (Text EmptyString)) 0 (Ref [0] (Text EmptyString)) 0)
          [Ref [] emptyFirst; Ref [0] (Text EmptyString)]) =
     Some (Normal w') /\
     DOM.endContainer (range w') = Ref [1] (Text "ab") /\
     endOffset (range w') = 2 /\
     stop w' = true).
Proof.
  split.
  - destruct (text_node_boundaries (snapshot 0 0) [0] EmptyString
                [Ref [1] (Text "ab"); Ref [2] (Comment "note")] (initialWalk emptyFirst)
                eq_refl) as [Ha _].
    destruct Ha as [r1 [w' [_ [_ [_ [_ [Hw [Hf [_ [_ [Hs He]]]]]]]]]]];
      [reflexivity|simpl; lia|].
    destruct Hs as [Hs1 Hs2]; [simpl; lia|].
    destruct He as [[He1 [He2 He3]] _]; [simpl; lia|].
    exists w'. specialize (Hw 0). rewrite He3 in Hw. auto 10.
  - destruct (text_node_boundaries (snapshot 0 2) [1] "ab" [Ref [2] (Comment "note")]
                (mkWalk 0 true false
                   (mkRange (Ref [0] (Text EmptyString)) 0 (Ref [0] (Text EmptyString)) 0)
                   [Ref [] emptyFirst; Ref [0] (Text EmptyString)])
                eq_refl) as [_ Hb].
    destruct Hb as [w' [_ [Hw [H1 [H2 [H3 _]]]]]]; [reflexivity|simpl; lia|].
    exists w'. specialize (Hw 0). auto.
Defined.

(** ** The traversal *)

(** C7, as amended: the nodes with which the loop of [importSelection]
    is entered are, in order, an initial part of the depth-first
    pre-order list of the root's subtree.  When the loop is stopped, the
    last node it was entered with is the text node in which the end
    boundary was resolved, at the local offset of [end], and the nodes
    after it in the list are not entered; when it is not stopped, it is
    entered with every node of the list.  A comment node leaves the
    counter and the range as they are and pushes nothing; an element puts
    its children on top of the stack in document order. *)
Theorem walk_preorder_prefix (rootNode : Node) (sel : SerializedSelection) :
  (exists w rest,
     walk dom (List.length (preorder rootNode)) sel (Some (Ref [] rootNode)) []
       (initialWalk rootNode) = Some (Normal w) /\
     map (under []) (preorder rootNode) = visited w ++ rest /\
     (stop w = false -> rest = []) /\
     (stop w = true ->
      exists seen q s,
        visited w = seen ++ [Ref q (Text s)] /\
        DOM.endContainer (range w) = Ref q (Text s) /\
        endOffset (range w) =
          Z.to_nat (end_ sel - (charIndex w - Z.of_nat (String.length s))) /\
        (charIndex w - Z.of_nat (String.length s) <= end_ sel <= charIndex w)%Z)) /\
  (forall p d st w,
     iteration dom sel (Ref p (Comment d)) st w =
     Normal (fst (pop st), snd (pop st),
             mkWalk (charIndex w) (foundStart w) (stop w) (range w)
                    (visited w ++ [Ref p (Comment d)]))) /\
  (forall p t cs st w,
     stop w = false ->
     iteration dom sel (Ref p (Element t cs)) st w =
     Normal (fst (pop (indexFrom p 0 cs ++ st)), snd (pop (indexFrom p 0 cs ++ st)),
             mkWalk (charIndex w) (foundStart w) false (range w)
                    (visited w ++ [Ref p (Element t cs)]))).
Proof.
  split; [|split].
  - rewrite walk_root.
    destruct (process_dom_normal sel (map (under []) (preorder rootNode))
                (initialWalk rootNode)) as [w Hw].
    destruct (process_visited _ _ _ _ _ Hw) as [seen [rest [H1 [H2 H3]]]].
    exists w, rest. rewrite Hw. split; [reflexivity|]. split; [|split; [exact H3|]].
    + rewrite H2. exact H1.
    + intros Hs.
      destruct (process_stop_last sel _ _ _ Hw eq_refl Hs)
        as [seen' [q [s [rest' [_ [E2 [E3 [E4 E5]]]]]]]].
      exists seen', q, s. simpl in E2. auto.
  - intros p d st w. unfold iteration. simpl. destruct st; reflexivity.
  - intros p t cs st w Hs. rewrite iteration_visit by exact Hs. simpl.
    rewrite Hs. reflexivity.
Qed.

Lemma walk_preorder_prefix_witness :
  (stop (initialWalk twoBlocks) = false /\
   iteration dom (snapshot 3 9) (Ref [] twoBlocks) [] (initialWalk twoBlocks) =
   Normal (Some (Ref [0] (Element "p" [Text "Hello "])),
           [Ref [1] (Element "b" [Text "World"])],
           mkWalk 0 false false (mkRange (Ref [] twoBlocks) 0 (Ref [] twoBlocks) 0)
                  [Ref [] twoBlocks])) /\
  (exists w seen q s,
     walk dom (List.length (preorder twoBlocks)) (snapshot 3 9) (Some (Ref [] twoBlocks)) []
       (initialWalk twoBlocks) = Some (Normal w) /\
     stop w = true /\
     visited w = map (under []) (preorder twoBlocks) /\
     visited w = seen ++ [Ref q (Text s)] /\
     DOM.endContainer (range w) = Ref q (Text s) /\
     endOffset (range w) = Z.to_nat (9 - (charIndex w - Z.of_nat (String.length s)))).
Proof.
  destruct (walk_preorder_prefix twoBlocks (snapshot 3 9)) as [Hw [_ He]]. split.
  - split; [reflexivity|].
    apply (He [] "div"%string
              [Element "p" [Text "Hello "]; Element "b" [Text "World"]] []
              (initialWalk twoBlocks)).
    reflexivity.
  - destruct Hw as [w [rest [Hw [_ [_ Hs]]]]].
    assert (E : walk dom (List.length (preorder twoBlocks)) (snapshot 3 9)
                  (Some (Ref [] twoBlocks)) [] (initialWalk twoBlocks) =
                Some (Normal
                        (mkWalk 11 true true
                           (mkRange (Ref [0; 0] (Text "Hello ")) 3
                                    (Ref [1; 0] (Text "World")) 3)
                           [Ref [] twoBlocks; Ref [0] (Element "p" [Text "Hello "]);
                            Ref [0; 0] (Text "Hello ");
                            Ref [1] (Element "b" [Text "World"]);
                            Ref [1; 0] (Text "World")])))
      by (vm_compute; reflexivity).
    assert (Ew : w = mkWalk 11 true true
                   (mkRange (Ref [0; 0] (Text "Hello ")) 3
                            (Ref [1; 0] (Text "World")) 3)
                   [Ref [] twoBlocks; Ref [0] (Element "p" [Text "Hello "]);
                    Ref [0; 0] (Text "Hello ");
                    Ref [1] (Element "b" [Text "World"]);
                    Ref [1; 0] (Text "World")])
      by congruence.
    assert (Hstop : stop w = true) by (rewrite Ew; reflexivity).
    assert (Hall : visited w = map (under []) (preorder twoBlocks))
      by (rewrite Ew; vm_compute; reflexivity).
    destruct (Hs Hstop) as [seen [q [s [H1 [H2 [H3 _]]]]]].
    exists w, seen, q, s. split; [exact Hw|]. split; [exact Hstop|].
    split; [exact Hall|]. split; [exact H1|]. split; [exact H2|exact H3].
Defined.

(** C7, counterexample: in a paragraph of two text nodes "ab" and "cd",
    restoring {start: 0, end: 1} enters the loop with the paragraph and
    with "ab" only; the text node "cd", which a depth-first traversal of
    the subtree visits, is never reached. *)
Lemma walk_stops_early :
  exists w,
    walk dom (List.length (preorder twoTexts)) (snapshot 0 1) (Some (Ref [] twoTexts)) []
      (initialWalk twoTexts) = Some (Normal w) /\
    visited w = [Ref [] twoTexts; Ref [0] (Text "ab")] /\
    map (under []) (preorder twoTexts) =
      [Ref [] twoTexts; Ref [0] (Text "ab"); Ref [1] (Text "cd")].
Proof. eexists. split; [reflexivity|]. split; reflexivity. Qed.

(** ** The result of [importSelection] *)

(** C4, as amended: [importSelection] returns false when the root or the
    snapshot is missing; otherwise it returns true exactly when no
    platform call throws, whether or not a start boundary was located
    and whether or not there is a selection object to update.  On the
    standard platform it always returns true. *)
Theorem import_result (P : Platform) (rootNode : Node)
    (sel : SerializedSelection) (live : LiveSelection) :
  importSelection P None (Some sel) live = Some (false, live) /\
  importSelection P (Some rootNode) None live = Some (false, live) /\
  (exists b live',
     importSelection P (Some rootNode) (Some sel) live = Some (b, live') /\
     (b = true <->
      exists r0 w,
        initialRange P (Ref [] rootNode) = Normal r0 /\
        walk P (List.length (preorder rootNode)) sel (Some (Ref [] rootNode)) []
          (mkWalk 0%Z false false r0 []) = Some (Normal w) /\
        fst (selectRange P (range w) live) = Normal tt)) /\
  (exists live',
     importSelection dom (Some rootNode) (Some sel) live = Some (true, live')).
Proof.
  split; [reflexivity|]. split; [reflexivity|]. split.
  - unfold importSelection, importSelectionFuel.
    destruct (initialRange P (Ref [] rootNode)) as [r0|e] eqn:Hr.
    + rewrite walk_root.
      destruct (process P sel (map (under []) (preorder rootNode))
                  (mkWalk 0%Z false false r0 [])) as [w|e] eqn:Hw.
      * destruct (selectRange P (range w) live) as [[u|e] l] eqn:Hsr.
        -- exists true, l. split; [reflexivity|]. split; [|reflexivity].
           intros _. exists r0, w. rewrite walk_root, Hw, Hsr. destruct u. auto.
        -- exists false, l. split; [reflexivity|]. split; [discriminate|].
           intros [r1 [w1 [H1 [H2 H3]]]]. inversion H1; subst r1.
           rewrite walk_root, Hw in H2. inversion H2; subst w1.
           rewrite Hsr in H3. discriminate.
      * exists false, live. split; [reflexivity|]. split; [discriminate|].
        intros [r1 [w1 [H1 [H2 _]]]]. inversion H1; subst r1.
        rewrite walk_root, Hw in H2. discriminate.
    + exists false, live. split; [reflexivity|]. split; [discriminate|].
      intros [r1 [w1 [H1 _]]]. discriminate.
  - destruct (import_dom rootNode sel live) as [w [_ H]]. eexists. exact H.
Qed.

(** C4, counterexample: on [<div>Hello World</div>] the snapshot
    {start: 50, end: 60} matches no text node, the loop ends with the
    start not found, and [importSelection] still returns true; with no
    selection object it returns true and updates nothing. *)
Lemma import_true_without_start :
  (exists w,
     walk dom (List.length (preorder helloWorld)) (snapshot 50 60)
       (Some (Ref [] helloWorld)) [] (initialWalk helloWorld) = Some (Normal w) /\
     foundStart w = false) /\
  importSelection dom (Some helloWorld) (Some (snapshot 50 60)) (Some []) =
  Some (true, Some [mkRange (Ref [] helloWorld) 0 (Ref [] helloWorld) 0]) /\
  importSelection dom (Some helloWorld) (Some (snapshot 0 5)) None = Some (true, None).
Proof.
  split; [eexists; split; reflexivity|]. split; reflexivity.
Qed.

(** C8, as amended: an exception raised by a platform call inside
    [importSelection] never reaches the caller, which gets false.
    [importSelection] returns false in exactly these cases: a call that
    builds the range throws, or [removeAllRanges] throws, and the live
    selection is as it was; or [addRange] throws on the range the loop has
    built, and the live selection holds what [removeAllRanges], which has
    already run, left of it. *)
Theorem import_exception_state (P : Platform) (rootNode : Node)
    (sel : SerializedSelection) (live live' : LiveSelection) :
  importSelection P (Some rootNode) (Some sel) live = Some (false, live') <->
  (live' = live /\
   ((exists e, initialRange P (Ref [] rootNode) = Throw e) \/
    (exists r0 e,
       initialRange P (Ref [] rootNode) = Normal r0 /\
       walk P (List.length (preorder rootNode)) sel (Some (Ref [] rootNode)) []
         (mkWalk 0%Z false false r0 []) = Some (Throw e)) \/
    (exists r0 w rs e,
       initialRange P (Ref [] rootNode) = Normal r0 /\
       walk P (List.length (preorder rootNode)) sel (Some (Ref [] rootNode)) []
         (mkWalk 0%Z false false r0 []) = Some (Normal w) /\
       live = Some rs /\
       removeAllRanges P rs = Throw e))) \/
  (exists r0 w rs rs1 e,
     initialRange P (Ref [] rootNode) = Normal r0 /\
     walk P (List.length (preorder rootNode)) sel (Some (Ref [] rootNode)) []
       (mkWalk 0%Z false false r0 []) = Some (Normal w) /\
     live = Some rs /\
     removeAllRanges P rs = Normal rs1 /\
     addRange P rs1 (range w) = Throw e /\
     live' = Some rs1).
Proof.
  unfold importSelection, importSelectionFuel, selectRange. split.
  - destruct (initialRange P (Ref [] rootNode)) as [r0|e0] eqn:Hr.
    + destruct (walk P (List.length (preorder rootNode)) sel (Some (Ref [] rootNode)) []
                  (mkWalk 0%Z false false r0 [])) as [[w|e1]|] eqn:Hw.
      * destruct live as [rs|].
        -- destruct (removeAllRanges P rs) as [rs1|e2] eqn:Hrm.
           ++ destruct (addRange P rs1 (range w)) as [rs2|e3] eqn:Hadd.
              ** discriminate.
              ** intros H. inversion H; subst live'. right.
                 exists r0, w, rs, rs1, e3. auto 10.
           ++ intros H. inversion H; subst live'. left. split; [reflexivity|].
              right. right. exists r0, w, rs, e2. auto.
        -- discriminate.
      * intros H. inversion H; subst live'. left. split; [reflexivity|].
        right. left. exists r0, e1. auto.
      * discriminate.
    + intros H. inversion H; subst live'. left. split; [reflexivity|].
      left. exists e0. reflexivity.
  - intros [[-> [[e H]|[[r0 [e [H1 H2]]]|[r0 [w [rs [e [H1 [H2 [H3 H4]]]]]]]]]]
           |[r0 [w [rs [rs1 [e [H1 [H2 [H3 [H4 [H5 H6]]]]]]]]]]].
    + rewrite H. reflexivity.
    + rewrite H1, H2. reflexivity.
    + rewrite H1, H2, H3, H4. reflexivity.
    + rewrite H1, H2, H3, H4, H5, H6. reflexivity.
Qed.

Lemma import_exception_state_witness :
  importSelection rejecting (Some helloWorld) (Some (snapshot 0 5))
    (Some [mkRange (Ref [] helloWorld) 0 (Ref [] helloWorld) 1]) = Some (false, Some []).
Proof.
  apply (import_exception_state rejecting helloWorld (snapshot 0 5)
           (Some [mkRange (Ref [] helloWorld) 0 (Ref [] helloWorld) 1]) (Some [])).
  right.
  exists (mkRange (Ref [] helloWorld) 0 (Ref [] helloWorld) 0).
  exists (mkWalk 11 true true
            (mkRange (Ref [0] (Text "Hello World")) 0 (Ref [0] (Text "Hello World")) 5)
            [Ref [] helloWorld; Ref [0] (Text "Hello World")]).
  exists [mkRange (Ref [] helloWorld) 0 (Ref [] helloWorld) 1], [], InvalidStateError.
  repeat split.
Defined.

(** C8, counterexample: on a platform whose [addRange] rejects the range,
    [importSelection] returns false and the selection, which held one
    range before the call, is empty after it. *)
Lemma addRange_rejection_clears_selection :
  importSelection rejecting (Some helloWorld) (Some (snapshot 0 5))
    (Some [mkRange (Ref [] helloWorld) 0 (Ref [] helloWorld) 1]) = Some (false, Some []) /\
  Some ([] : list Range) <> Some [mkRange (Ref [] helloWorld) 0 (Ref [] helloWorld) 1].
Proof. split; [reflexivity|discriminate]. Qed.

(** C10: [importSelection] reads nothing of the snapshot but [start] and
    [end]: two snapshots that agree on these give the same return value
    and the same live selection, on every platform, whatever their
    [collapsed], [startContainer] and [endContainer] fields. *)
Theorem import_reads_offsets_only (P : Platform) (root : option Node)
    (s1 s2 : SerializedSelection) (live : LiveSelection) :
  start s1 = start s2 -> end_ s1 = end_ s2 ->
  importSelection P root (Some s1) live = importSelection P root (Some s2) live.
Proof.
  intros Hs He. unfold importSelection, importSelectionFuel.
  destruct root as [rootNode|]; [|reflexivity].
  destruct (initialRange P (Ref [] rootNode)); [|reflexivity].
  rewrite (walk_offsets P s1 s2 Hs He). reflexivity.
Qed.

Lemma import_reads_offsets_only_witness :
  start (mkSerializedSelection 3 9 None None false) =
  start (mkSerializedSelection 3 9 (Some DocumentNode) (Some (Ref [7] (Comment "gone"))) true) /\
  importSelection dom (Some twoBlocks)
    (Some (mkSerializedSelection 3 9 None None false)) (Some []) =
  importSelection dom (Some twoBlocks)
    (Some (mkSerializedSelection 3 9 (Some DocumentNode)
             (Some (Ref [7] (Comment "gone"))) true)) (Some []).
Proof.
  split; [reflexivity|].
  apply (import_reads_offsets_only dom (Some twoBlocks)
           (mkSerializedSelection 3 9 None None false)
           (mkSerializedSelection 3 9 (Some DocumentNode)
              (Some (Ref [7] (Comment "gone"))) true) (Some [])); reflexivity.
Defined.

(** * The other methods of the selection manager *)

Module OpsFacts.

Lemma eqPath_nil_r p : eqPath p [] = true -> p = [].
Proof. destruct p; [reflexivity|discriminate]. Qed.

Lemma sameNode_root n root :
  sameNode n (Ref [] root) = true -> exists nd, n = Ref [] nd.
Proof.
  destruct n as [|p nd]; simpl; [discriminate|]. intros H.
  apply eqPath_nil_r in H. subst p. exists nd. reflexivity.
Qed.

Lemma sameNode_path p a n :
  sameNode (Ref p a) n = true -> exists b, n = Ref p b.
Proof.
  destruct n as [|q b]; simpl; [discriminate|]. intros H.
  apply eqPath_eq in H. subst q. exists b. reflexivity.
Qed.

(** The text nodes that the tree walker returns for the root are the
    text nodes of the pre-order list after the root itself. *)
Lemma walker_first l :
  fst (nextNode (filter isTextRef (map (under []) l))) =
  match firstText l with
  | Some (q, s) => Some (Ref q (Text s))
  | None => None
  end.
Proof.
  induction l as [|[q [t cs|s|s]] l IH]; simpl; auto.
Qed.

Lemma walker_last l : forall acc,
  lastNodeLoop (filter isTextRef (map (under []) l))
    (match acc with Some (q, s) => Some (Ref q (Text s)) | None => None end) =
  match lastText l acc with
  | Some (q, s) => Some (Ref q (Text s))
  | None => None
  end.
Proof.
  induction l as [|[q [t cs|s|s]] l IH]; intros acc; simpl; auto.
  apply (IH (Some (q, s))).
Qed.

Lemma offs_firstText f acc l q s :
  offs f acc l -> firstText l = Some (q, s) -> f q 0 = acc.
Proof.
  revert acc. induction l as [|[q' [t cs|s'|s']] l IH]; intros acc Ho Hf; simpl in *.
  - discriminate.
  - eapply IH; eassumption.
  - inversion Hf; subst. destruct Ho as [Hk _]. rewrite Hk by lia. lia.
  - eapply IH; eassumption.
Qed.

Lemma offs_lastText f l : forall acc q0 s0 q s,
  offs f acc l ->
  f q0 (String.length s0) = acc ->
  lastText l (Some (q0, s0)) = Some (q, s) ->
  f q (String.length s) = acc + textLen l.
Proof.
  induction l as [|[q' [t cs|s'|s']] l IH]; intros acc q0 s0 q s Ho H0 Hl; simpl in *.
  - inversion Hl; subst. lia.
  - eapply IH; eassumption.
  - destruct Ho as [Hk Ho].
    rewrite Nat.add_assoc. eapply IH; [exact Ho| |exact Hl].
    apply Hk. lia.
  - eapply IH; eassumption.
Qed.

Lemma offs_lastText_none f l : forall acc q s,
  offs f acc l ->
  lastText l None = Some (q, s) ->
  f q (String.length s) = acc + textLen l.
Proof.
  induction l as [|[q' [t cs|s'|s']] l IH]; intros acc q s Ho Hl; simpl in *.
  - discriminate.
  - eapply IH; eassumption.
  - destruct Ho as [Hk Ho]. rewrite Nat.add_assoc.
    eapply offs_lastText; [exact Ho| |exact Hl]. apply Hk. lia.
  - eapply IH; eassumption.
Qed.

Lemma offsetPoint_root_end t cs nd :
  offsetPoint (Element t cs) (Ref [] nd) (List.length cs) =
  String.length (descendantText (Element t cs)).
Proof. unfold offsetPoint. simpl. rewrite firstn_all. reflexivity. Qed.

Lemma offsetPoint_root_start root nd : offsetPoint root (Ref [] nd) 0 = 0.
Proof. unfold offsetPoint, textBeforePoint. rewrite textBefore_start. reflexivity. Qed.

(** The text before the end of a node's content is the text before its
    beginning followed by the node's own text. *)
Lemma textBefore_whole : forall p root nd,
  nodeAt root p = Some nd ->
  String.length (textBefore root p (nodeLength (Ref p nd))) =
  String.length (textBefore root p 0) + String.length (descendantText nd).
Proof.
  induction p as [|i p IH]; intros root nd H; simpl in H.
  - inversion H; subst nd. rewrite textBefore_start.
    destruct root as [t cs|s|s]; simpl.
    + rewrite firstn_all. reflexivity.
    + rewrite length_substring_min. lia.
    + reflexivity.
  - destruct root as [t cs|s|s]; try discriminate.
    destruct (nth_error cs i) as [c|] eqn:E; [|discriminate].
    change (nodeLength (Ref (i :: p) nd)) with (nodeLength (Ref p nd)).
    cbn [textBefore]. rewrite E, !length_append.
    rewrite (IH c nd H). lia.
Qed.

End OpsFacts.

Import OpsFacts.

Lemma indexFrom_length p cs : forall i, List.length (indexFrom p i cs) = List.length cs.
Proof. induction cs as [|c cs IH]; intros i; simpl; [reflexivity|]. rewrite IH. reflexivity. Qed.

Lemma validOffset_zero n : validOffset n 0 = true.
Proof. unfold validOffset. apply andb_true_intro. split; apply Z.leb_le; lia. Qed.

Lemma validOffset_length n : validOffset n (Z.of_nat (nodeLength n)) = true.
Proof. unfold validOffset. apply andb_true_intro. split; apply Z.leb_le; lia. Qed.

(** X1: selecting the contents of a node of the root's tree and exporting:
    [selectNode] returns true, both ends of the selection are on the
    node, and the snapshot runs from the text offset of the node to that
    offset plus the length of the node's text. *)
Theorem selectNode_export (root : Node) (p : Path) (nd : Node) (rs : list Range) :
  nodeAt root p = Some nd ->
  exists live' snap,
    selectNode dom (Ref p nd) (Some rs) = (true, live') /\
    getSelectionStart live' = Some (Ref p nd) /\
    getSelectionEnd live' = Some (Ref p nd) /\
    exportSelection dom (Some root) live' = Normal (Some snap) /\
    start snap = Z.of_nat (String.length (textBefore root p 0)) /\
    end_ snap = (start snap + Z.of_nat (String.length (descendantText nd)))%Z /\
    collapsed snap = Nat.eqb 0 (nodeLength (Ref p nd)).
Proof.
  intros Hn.
  exists (Some [mkRange (Ref p nd) 0 (Ref p nd) (nodeLength (Ref p nd))]).
  eexists. split; [reflexivity|]. split; [reflexivity|]. split; [reflexivity|].
  rewrite export_dom_offsets by apply validOffset_zero.
  split; [reflexivity|].
  cbn [start end_ collapsed DOM.startContainer startOffset DOM.endContainer endOffset].
  unfold offsetPoint, textBeforePoint. rewrite (textBefore_whole p root nd Hn).
  split; [reflexivity|]. split; [lia|].
  unfold DOM.collapsed. simpl. rewrite eqPath_refl. reflexivity.
Qed.

Lemma selectNode_export_witness :
  nodeAt twoBlocks [1] = Some (Element "b" [Text "World"]) /\
  exists live' snap,
    selectNode dom (Ref [1] (Element "b" [Text "World"])) (Some []) = (true, live') /\
    getSelectionStart live' = Some (Ref [1] (Element "b" [Text "World"])) /\
    getSelectionEnd live' = Some (Ref [1] (Element "b" [Text "World"])) /\
    exportSelection dom (Some twoBlocks) live' = Normal (Some snap) /\
    start snap = Z.of_nat (String.length (textBefore twoBlocks [1] 0)) /\
    end_ snap =
      (start snap + Z.of_nat (String.length (descendantText (Element "b" [Text "World"]))))%Z /\
    collapsed snap = Nat.eqb 0 (nodeLength (Ref [1] (Element "b" [Text "World"]))).
Proof.
  split; [reflexivity|].
  apply (selectNode_export twoBlocks [1] (Element "b" [Text "World"]) []).
  reflexivity.
Defined.

(** X2: on any platform [selectNode] returns false in exactly these
    cases: a call that builds the range throws, there is no selection
    object, or [removeAllRanges] throws, and the live selection is as it
    was; or [addRange] throws on the range built for the node, and the
    live selection holds what [removeAllRanges], which has already run,
    left of it. *)
Theorem selectNode_failure_state (P : Platform) (node : NodeRef) (live live' : LiveSelection) :
  selectNode P node live = (false, live') <->
  (live' = live /\
   ((exists e, (range <- createRange P ;; selectNodeContents P range node) = Throw e) \/
    (exists r, (range <- createRange P ;; selectNodeContents P range node) = Normal r /\
               live = None) \/
    (exists r rs e,
       (range <- createRange P ;; selectNodeContents P range node) = Normal r /\
       live = Some rs /\
       removeAllRanges P rs = Throw e))) \/
  (exists r rs rs1 e,
     (range <- createRange P ;; selectNodeContents P range node) = Normal r /\
     live = Some rs /\
     removeAllRanges P rs = Normal rs1 /\
     addRange P rs1 r = Throw e /\
     live' = Some rs1).
Proof.
  unfold selectNode. split.
  - destruct (range <- createRange P;; selectNodeContents P range node) as [r|e0].
    + destruct live as [rs|].
      * destruct (removeAllRanges P rs) as [rs1|e1] eqn:Hrm.
        -- destruct (addRange P rs1 r) as [rs2|e2] eqn:Hadd.
           ++ discriminate.
           ++ intros H. inversion H; subst live'. right.
              exists r, rs, rs1, e2. auto 10.
        -- intros H. inversion H; subst live'. left. split; [reflexivity|].
           right. right. exists r, rs, e1. auto.
      * intros H. inversion H; subst live'. left. split; [reflexivity|].
        right. left. exists r. auto.
    + intros H. inversion H; subst live'. left. split; [reflexivity|].
      left. exists e0. reflexivity.
  - intros [[-> [[e H]|[[r [H1 H2]]|[r [rs [e [H1 [H2 H3]]]]]]]]
           |[r [rs [rs1 [e [H1 [H2 [H3 [H4 H5]]]]]]]]].
    + rewrite H. reflexivity.
    + rewrite H1, H2. reflexivity.
    + rewrite H1, H2, H3. reflexivity.
    + rewrite H1, H2, H3, H4, H5. reflexivity.
Qed.

Lemma selectNode_failure_state_witness :
  selectNode rejecting (Ref [] helloWorld)
    (Some [mkRange (Ref [] helloWorld) 0 (Ref [] helloWorld) 1]) = (false, Some []).
Proof.
  apply (selectNode_failure_state rejecting (Ref [] helloWorld)
           (Some [mkRange (Ref [] helloWorld) 0 (Ref [] helloWorld) 1]) (Some [])).
  right.
  exists (mkRange (Ref [] helloWorld) 0 (Ref [] helloWorld) 1).
  exists [mkRange (Ref [] helloWorld) 0 (Ref [] helloWorld) 1], [], InvalidStateError.
  repeat split.
Defined.

(** X3: moving the cursor to the end of an element of the root's tree:
    the selection is then one that [isSelectionAtEnd] accepts for that
    element, [hasSelection] is false, and the exported snapshot is
    collapsed at the text offset where the element's text ends. *)
Theorem moveCursorToEnd_export (root : Node) (p : Path) (t : string) (cs : list Node)
    (rs : list Range) :
  nodeAt root p = Some (Element t cs) ->
  exists live' snap,
    moveCursorToEnd dom (Ref p (Element t cs)) (Some rs) = (Normal tt, live') /\
    isSelectionAtEnd (Ref p (Element t cs)) live' = true /\
    hasSelection live' = false /\
    exportSelection dom (Some root) live' = Normal (Some snap) /\
    start snap = Z.of_nat (String.length (textBefore root p 0) +
                           String.length (descendantText (Element t cs))) /\
    end_ snap = start snap /\
    collapsed snap = true.
Proof.
  intros Hn.
  exists (Some [mkRange (Ref p (Element t cs)) (List.length cs)
                        (Ref p (Element t cs)) (List.length cs)]).
  eexists. split; [reflexivity|]. split.
  { unfold isSelectionAtEnd. cbn [DOM.endContainer endOffset childNodes].
    rewrite indexFrom_length, Nat.eqb_refl. simpl. rewrite eqPath_refl. reflexivity. }
  split.
  { unfold hasSelection, Selection_isCollapsed. rewrite collapsed_point. reflexivity. }
  rewrite export_dom_offsets
    by apply (validOffset_length (Ref p (Element t cs))).
  split; [reflexivity|].
  cbn [start end_ collapsed DOM.startContainer startOffset DOM.endContainer endOffset].
  unfold offsetPoint, textBeforePoint.
  pose proof (textBefore_whole p root (Element t cs) Hn) as Hw.
  change (nodeLength (Ref p (Element t cs))) with (List.length cs) in Hw.
  rewrite Hw. split; [reflexivity|]. split; [lia|]. apply collapsed_point.
Qed.

Lemma moveCursorToEnd_export_witness :
  nodeAt twoBlocks [0] = Some (Element "p" [Text "Hello "]) /\
  exists live' snap,
    moveCursorToEnd dom (Ref [0] (Element "p" [Text "Hello "])) (Some []) =
      (Normal tt, live') /\
    isSelectionAtEnd (Ref [0] (Element "p" [Text "Hello "])) live' = true /\
    hasSelection live' = false /\
    exportSelection dom (Some twoBlocks) live' = Normal (Some snap) /\
    start snap = Z.of_nat (String.length (textBefore twoBlocks [0] 0) +
                           String.length (descendantText (Element "p" [Text "Hello "]))) /\
    end_ snap = start snap /\
    collapsed snap = true.
Proof.
  split; [reflexivity|].
  apply (moveCursorToEnd_export twoBlocks [0] "p" [Text "Hello "] []).
  reflexivity.
Defined.

(** X4: moving the cursor to the start of a node of the root's tree: the
    selection is then one that [isSelectionAtBeginning] accepts for that
    node, and the exported snapshot is collapsed at the text offset where
    the node begins. *)
Theorem moveCursorToStart_export (root : Node) (p : Path) (nd : Node) (rs : list Range) :
  nodeAt root p = Some nd ->
  exists live' snap,
    moveCursorToStart dom (Ref p nd) (Some rs) = (Normal tt, live') /\
    isSelectionAtBeginning (Ref p nd) live' = true /\
    hasSelection live' = false /\
    exportSelection dom (Some root) live' = Normal (Some snap) /\
    start snap = Z.of_nat (String.length (textBefore root p 0)) /\
    end_ snap = start snap /\
    collapsed snap = true.
Proof.
  intros Hn.
  exists (Some [mkRange (Ref p nd) 0 (Ref p nd) 0]).
  eexists. split; [reflexivity|]. split.
  { unfold isSelectionAtBeginning. cbn [DOM.startContainer startOffset].
    simpl. rewrite eqPath_refl. reflexivity. }
  split.
  { unfold hasSelection, Selection_isCollapsed. rewrite collapsed_point. reflexivity. }
  rewrite export_dom_offsets by apply validOffset_zero.
  split; [reflexivity|].
  cbn [start end_ collapsed DOM.startContainer startOffset DOM.endContainer endOffset].
  unfold offsetPoint, textBeforePoint.
  split; [reflexivity|]. split; [lia|]. apply collapsed_point.
Qed.

Lemma moveCursorToStart_export_witness :
  nodeAt twoBlocks [1; 0] = Some (Text "World") /\
  exists live' snap,
    moveCursorToStart dom (Ref [1; 0] (Text "World")) (Some []) = (Normal tt, live') /\
    isSelectionAtBeginning (Ref [1; 0] (Text "World")) live' = true /\
    hasSelection live' = false /\
    exportSelection dom (Some twoBlocks) live' = Normal (Some snap) /\
    start snap = Z.of_nat (String.length (textBefore twoBlocks [1; 0] 0)) /\
    end_ snap = start snap /\
    collapsed snap = true.
Proof.
  split; [reflexivity|].
  apply (moveCursorToStart_export twoBlocks [1; 0] (Text "World") []).
  reflexivity.
Defined.

Lemma firstText_descendants root q s :
  firstText (tl (preorder root)) = Some (q, s) ->
  offsetIn root q 0 = 0.
Proof.
  intros H. pose proof (offs_preorder root) as Ho.
  destruct root as [t cs|s0|s0]; simpl in H; try discriminate.
  rewrite preorder_Element in Ho. cbn [offs] in Ho.
  apply (offs_firstText _ _ _ _ _ Ho H).
Qed.

Lemma lastText_descendants t cs q s :
  lastText (tl (preorder (Element t cs))) None = Some (q, s) ->
  offsetIn (Element t cs) q (String.length s) =
  String.length (descendantText (Element t cs)).
Proof.
  intros H. pose proof (offs_preorder (Element t cs)) as Ho.
  rewrite preorder_Element in Ho, H. cbn [offs] in Ho. cbn [tl] in H.
  rewrite (offs_lastText_none _ _ _ _ _ Ho H), textLen_preorderList. reflexivity.
Qed.

(** X5: when [isSelectionAtBeginning] accepts the live selection for the
    root, the selection starts at text offset 0: every snapshot that
    [exportSelection] returns for it has start = 0. *)
Theorem atBeginning_start_zero (root : Node) (live : LiveSelection)
    (snap : SerializedSelection) :
  isSelectionAtBeginning (Ref [] root) live = true ->
  exportSelection dom (Some root) live = Normal (Some snap) ->
  start snap = 0%Z.
Proof.
  intros Hb He. apply export_dom_inv in He.
  destruct He as [r [rest [-> [_ [Hs _]]]]]. rewrite Hs. clear Hs.
  unfold isSelectionAtBeginning in Hb.
  destruct (sameNode (DOM.startContainer r) (Ref [] root) && Nat.eqb (startOffset r) 0)
    eqn:H1.
  - apply andb_prop in H1. destruct H1 as [Hn Ho].
    apply sameNode_root in Hn. destruct Hn as [nd ->].
    apply Nat.eqb_eq in Ho. rewrite Ho, offsetPoint_root_start. reflexivity.
  - unfold getFirstTextNode, createTreeWalker in Hb. rewrite walker_first in Hb.
    destruct (firstText (tl (preorder root))) as [[q s]|] eqn:Hf; [|discriminate].
    destruct (sameNode (Ref q (Text s)) (DOM.startContainer r) &&
              Nat.eqb (startOffset r) 0) eqn:H2; [|discriminate].
    apply andb_prop in H2. destruct H2 as [Hn Ho].
    apply sameNode_path in Hn. destruct Hn as [b ->].
    apply Nat.eqb_eq in Ho. rewrite Ho.
    change (offsetPoint root (Ref q b) 0) with (offsetIn root q 0).
    rewrite (firstText_descendants root q s Hf). reflexivity.
Qed.

Lemma atBeginning_start_zero_witness :
  isSelectionAtBeginning (Ref [] twoBlocks)
    (Some [mkRange (Ref [0; 0] (Text "Hello ")) 0 (Ref [1; 0] (Text "World")) 2]) = true /\
  exportSelection dom (Some twoBlocks)
    (Some [mkRange (Ref [0; 0] (Text "Hello ")) 0 (Ref [1; 0] (Text "World")) 2]) =
  Normal (Some (mkSerializedSelection 0 8 (Some (Ref [0; 0] (Text "Hello ")))
                  (Some (Ref [1; 0] (Text "World"))) false)) /\
  start (mkSerializedSelection 0 8 (Some (Ref [0; 0] (Text "Hello ")))
           (Some (Ref [1; 0] (Text "World"))) false) = 0%Z.
Proof.
  split; [reflexivity|]. split; [reflexivity|].
  apply (atBeginning_start_zero twoBlocks
           (Some [mkRange (Ref [0; 0] (Text "Hello ")) 0 (Ref [1; 0] (Text "World")) 2]));
    reflexivity.
Defined.

(** X6: when [isSelectionAtEnd] accepts, for a root element, a live
    selection that starts inside the root, the selection ends where the
    root's text ends: the snapshot that [exportSelection] returns for it
    has end = the length of the root's text. *)
Theorem atEnd_end_total (t : string) (cs : list Node) (r : Range) (rest : list Range)
    (snap : SerializedSelection) :
  inTree (Element t cs) (DOM.startContainer r) ->
  isSelectionAtEnd (Ref [] (Element t cs)) (Some (r :: rest)) = true ->
  exportSelection dom (Some (Element t cs)) (Some (r :: rest)) = Normal (Some snap) ->
  end_ snap = Z.of_nat (String.length (descendantText (Element t cs))).
Proof.
  intros _ Hb He. apply export_dom_inv in He.
  destruct He as [r0 [rest0 [E [_ [_ [He _]]]]]]. inversion E; subst r0 rest0.
  rewrite He. clear He E.
  pose proof (offsetPoint_le (Element t cs) (DOM.startContainer r) (startOffset r)) as Hle.
  assert (Hend : offsetPoint (Element t cs) (DOM.endContainer r) (endOffset r) =
                 String.length (descendantText (Element t cs))).
  { unfold isSelectionAtEnd in Hb.
    destruct (sameNode (DOM.endContainer r) (Ref [] (Element t cs)) &&
              Nat.eqb (endOffset r) (List.length (childNodes (Ref [] (Element t cs)))))
      eqn:H1.
    - apply andb_prop in H1. destruct H1 as [Hn Ho].
      apply sameNode_root in Hn. destruct Hn as [nd ->].
      apply Nat.eqb_eq in Ho. rewrite Ho. cbn [childNodes].
      rewrite indexFrom_length. apply offsetPoint_root_end.
    - unfold getLastTextNode, createTreeWalker in Hb.
      pose proof (walker_last (tl (preorder (Element t cs))) None) as Hw.
      cbn beta iota in Hw. rewrite Hw in Hb. clear Hw.
      destruct (lastText (tl (preorder (Element t cs))) None) as [[q s]|] eqn:Hf;
        [|discriminate].
      destruct (sameNode (Ref q (Text s)) (DOM.endContainer r) &&
                (Z.of_nat (endOffset r) =? textLength (Ref q (Text s)))%Z) eqn:H2;
        [|discriminate].
      apply andb_prop in H2. destruct H2 as [Hn Ho].
      apply sameNode_path in Hn. destruct Hn as [b ->].
      apply Z.eqb_eq in Ho. unfold textLength in Ho. simpl in Ho.
      apply Nat2Z.inj in Ho. rewrite Ho.
      change (offsetPoint (Element t cs) (Ref q b) (String.length s))
        with (offsetIn (Element t cs) q (String.length s)).
      apply (lastText_descendants t cs q s Hf). }
  rewrite Hend. lia.
Qed.

Lemma atEnd_end_total_witness :
  inTree twoBlocks (Ref [0; 0] (Text "Hello ")) /\
  isSelectionAtEnd (Ref [] twoBlocks)
    (Some [mkRange (Ref [0; 0] (Text "Hello ")) 3 (Ref [1; 0] (Text "World")) 5]) = true /\
  exportSelection dom (Some twoBlocks)
    (Some [mkRange (Ref [0; 0] (Text "Hello ")) 3 (Ref [1; 0] (Text "World")) 5]) =
  Normal (Some (mkSerializedSelection 3 11 (Some (Ref [0; 0] (Text "Hello ")))
                  (Some (Ref [1; 0] (Text "World"))) false)) /\
  end_ (mkSerializedSelection 3 11 (Some (Ref [0; 0] (Text "Hello ")))
          (Some (Ref [1; 0] (Text "World"))) false) =
  Z.of_nat (String.length (descendantText twoBlocks)).
Proof.
  split; [reflexivity|]. split; [reflexivity|]. split; [reflexivity|].
  apply (atEnd_end_total "div" [Element "p" [Text "Hello "]; Element "b" [Text "World"]]
           (mkRange (Ref [0; 0] (Text "Hello ")) 3 (Ref [1; 0] (Text "World")) 5) []);
    reflexivity.
Defined.

(** Restoring start = 0: the start lands at offset 0 of the first text
    node of the list, or stays at the root when there is none. *)
Lemma scan_first (root : Node) (sel : SerializedSelection) :
  forall l w w',
    offs (offsetIn root) 0 l ->
    sortedTexts l ->
    textsAfter [0] l ->
    foundStart w = false ->
    stop w = false ->
    range w = mkRange (Ref [] root) 0 (Ref [] root) 0 ->
    charIndex w = 0%Z ->
    start sel = 0%Z ->
    (0 <= end_ sel)%Z ->
    process dom sel (map (under []) l) w = Normal w' ->
    match firstText l with
    | Some (q, s) =>
        DOM.startContainer (range w') = Ref q (Text s) /\ startOffset (range w') = 0
    | None => range w' = range w
    end.
Proof.
  induction l as [|[q [t cs|s|s]] l IH];
    intros w w' Ho Hsort Ha Hf Hs Hr Hc H0 He Hp;
    cbn [map process] in Hp; unfold under in Hp; cbn [fst snd app] in Hp;
    rewrite ?Hs in Hp.
  - inversion Hp. reflexivity.
  - apply textsAfter_tail in Ha. cbn [visit] in Hp.
    apply IH in Hp; simpl in *; auto.
  - cbn [firstText]. simpl in Ho, Hsort.
    destruct Ho as [Hk Ho]. destruct Hsort as [Hq Hsort].
    assert (Hgt : forall a, comparePoints (Ref q (Text s)) a
                    (DOM.endContainer (range w)) (endOffset (range w)) = Gt).
    { intros a. rewrite Hr. unfold comparePoints. simpl.
      apply (Ha q s a (or_introl eq_refl)). }
    destruct (Z_le_gt_dec (end_ sel) (Z.of_nat (String.length s))) as [Hin|Hout].
    + rewrite visit_start_end in Hp; auto; try lia.
      rewrite process_stopped in Hp by reflexivity. inversion Hp; subst w'; simpl.
      rewrite H0, Hc. split; reflexivity.
    + rewrite visit_start_only in Hp; auto; try lia.
      set (w1 := mkWalk _ _ _ _ _) in Hp.
      assert (Hstart : DOM.startContainer (range w1) = Ref q (Text s) /\
                       startOffset (range w1) = 0).
      { subst w1. simpl. rewrite H0, Hc. split; reflexivity. }
      destruct (Z_le_gt_dec (end_ sel) (Z.of_nat (0 + String.length s + textLen l)))
        as [Hfound|Hbeyond].
      * apply scan_end_found with (root := root) (c := 0 + String.length s) in Hp;
          subst w1; simpl; auto; try lia.
        destruct Hp as [_ [HsC [HsO _]]]. simpl in HsC, HsO.
        rewrite HsC, HsO, H0, Hc. split; reflexivity.
      * apply scan_end_beyond with (c := 0 + String.length s) in Hp;
          subst w1; simpl; auto; try lia.
        destruct Hp as [Hrange _]. rewrite Hrange. exact Hstart.
  - apply textsAfter_tail in Ha. cbn [visit] in Hp.
    apply IH in Hp; simpl in *; auto.
Qed.

(** X7: restoring a snapshot with start = 0 in a root element puts the
    start of the selection at offset 0 of the root's first text node, or
    at (root, 0) when the root has no text node; [importSelection]
    returns true and [isSelectionAtBeginning] accepts the result. *)
Theorem import_zero_at_beginning (t : string) (cs : list Node)
    (sel : SerializedSelection) (rs : list Range) :
  start sel = 0%Z ->
  (0 <= end_ sel)%Z ->
  exists r',
    importSelection dom (Some (Element t cs)) (Some sel) (Some rs) = Some (true, Some [r']) /\
    getSelectionStart (Some [r']) =
      Some (match getFirstTextNode (Ref [] (Element t cs)) with
            | Some firstTextNode => firstTextNode
            | None => Ref [] (Element t cs)
            end) /\
    startOffset r' = 0 /\
    isSelectionAtBeginning (Ref [] (Element t cs)) (Some [r']) = true.
Proof.
  intros H0 He.
  destruct (import_dom (Element t cs) sel (Some rs)) as [w [Hw Hi]].
  exists (range w). split; [exact Hi|].
  pose proof (scan_first (Element t cs) sel (preorder (Element t cs))
                (initialWalk (Element t cs)) w
                (offs_preorder _) (sortedTexts_preorder _) (textsAfter_root t cs)
                eq_refl eq_refl eq_refl eq_refl H0 He Hw) as Hfirst.
  unfold isSelectionAtBeginning, getSelectionStart.
  unfold getFirstTextNode, createTreeWalker. rewrite walker_first.
  rewrite preorder_Element in Hfirst. cbn [firstText] in Hfirst.
  rewrite preorder_Element. cbn [tl].
  destruct (firstText (preorderList 0 cs)) as [[q s]|].
  - destruct Hfirst as [HC HO]. rewrite HC, HO.
    split; [reflexivity|]. split; [reflexivity|].
    simpl. rewrite eqPath_refl. simpl.
    destruct (eqPath q [] && true); reflexivity.
  - rewrite Hfirst. simpl. auto.
Qed.

Lemma import_zero_at_beginning_witness :
  start (snapshot 0 8) = 0%Z /\ (0 <= end_ (snapshot 0 8))%Z /\
  exists r',
    importSelection dom (Some twoBlocks) (Some (snapshot 0 8)) (Some []) =
      Some (true, Some [r']) /\
    getSelectionStart (Some [r']) =
      Some (match getFirstTextNode (Ref [] twoBlocks) with
            | Some firstTextNode => firstTextNode
            | None => Ref [] twoBlocks
            end) /\
    startOffset r' = 0 /\
    isSelectionAtBeginning (Ref [] twoBlocks) (Some [r']) = true.
Proof.
  split; [reflexivity|]. split; [simpl; lia|].
  apply (import_zero_at_beginning "div"
           [Element "p" [Text "Hello "]; Element "b" [Text "World"]] (snapshot 0 8) []).
  - reflexivity.
  - simpl. lia.
Defined.

(** X8: after restoring a snapshot with 0 <= start <= end <= the length
    of the root's text, [hasSelection] is true exactly when
    start < end. *)
Theorem hasSelection_after_import (t : string) (cs : list Node)
    (sel : SerializedSelection) (rs : list Range) :
  (0 <= start sel <= end_ sel)%Z ->
  (end_ sel <= Z.of_nat (String.length (descendantText (Element t cs))))%Z ->
  exists live',
    importSelection dom (Some (Element t cs)) (Some sel) (Some rs) = Some (true, live') /\
    hasSelection live' = (start sel <? end_ sel)%Z.
Proof.
  intros H0 Ht.
  destruct (restore_export t cs sel rs) as [r' [Hi [snap' [Hx [Hs [Hin _]]]]]];
    try lia.
  destruct (Hin Ht) as [He Hc].
  exists (Some [r']). split; [exact Hi|].
  pose proof (export_dom_bounds _ _ _ Hx) as [_ [_ Hcol]].
  apply export_dom_inv in Hx. destruct Hx as [r [rest [E [_ [_ [_ Hr]]]]]].
  inversion E; subst r rest.
  unfold hasSelection, Selection_isCollapsed. rewrite <- Hr.
  destruct (Z.ltb_spec (start sel) (end_ sel)) as [Hlt|Hge].
  - destruct (collapsed snap'); [|reflexivity].
    specialize (Hcol eq_refl). lia.
  - rewrite Hc by lia. reflexivity.
Qed.

Lemma hasSelection_after_import_witness :
  (0 <= start (snapshot 3 9) <= end_ (snapshot 3 9))%Z /\
  (end_ (snapshot 3 9) <= Z.of_nat (String.length (descendantText twoBlocks)))%Z /\
  exists live',
    importSelection dom (Some twoBlocks) (Some (snapshot 3 9)) (Some []) =
      Some (true, live') /\
    hasSelection live' = (start (snapshot 3 9) <? end_ (snapshot 3 9))%Z.
Proof.
  split; [simpl; lia|]. split; [simpl; lia|].
  apply (hasSelection_after_import "div"
           [Element "p" [Text "Hello "]; Element "b" [Text "World"]] (snapshot 3 9) []);
    simpl; lia.
Defined.

(** X9: [importSelection] is idempotent on the standard platform:
    restoring the same snapshot again, on the selection the first call
    left, returns true and leaves that selection as it is. *)
Theorem import_idempotent (root : Node) (sel : SerializedSelection)
    (live live1 : LiveSelection) :
  importSelection dom (Some root) (Some sel) live = Some (true, live1) ->
  importSelection dom (Some root) (Some sel) live1 = Some (true, live1).
Proof.
  intros H.
  destruct (import_dom root sel live) as [w [Hw Hi]].
  destruct (import_dom root sel live1) as [w1 [Hw1 Hi1]].
  rewrite Hw in Hw1. inversion Hw1; subst w1.
  rewrite Hi in H. inversion H; subst live1.
  rewrite Hi1. destruct live; reflexivity.
Qed.

Lemma import_idempotent_witness :
  importSelection dom (Some twoBlocks) (Some (snapshot 3 9))
    (Some [mkRange (Ref [] twoBlocks) 0 (Ref [] twoBlocks) 1]) =
  Some (true, Some [mkRange (Ref [0; 0] (Text "Hello ")) 3 (Ref [1; 0] (Text "World")) 3]) /\
  importSelection dom (Some twoBlocks) (Some (snapshot 3 9))
    (Some [mkRange (Ref [0; 0] (Text "Hello ")) 3 (Ref [1; 0] (Text "World")) 3]) =
  Some (true, Some [mkRange (Ref [0; 0] (Text "Hello ")) 3 (Ref [1; 0] (Text "World")) 3]).
Proof.
  split; [reflexivity|].
  apply (import_idempotent twoBlocks (snapshot 3 9)
           (Some [mkRange (Ref [] twoBlocks) 0 (Ref [] twoBlocks) 1])).
  reflexivity.
Defined.

(** X10: the editor's save and restore compose to a round trip: when
    [saveSelection] returns a snapshot for a live selection that lies
    inside the focused element, [restoreSelection], whatever the live
    selection has become in between, returns true and replaces it by one
    range inside the element, and saving again returns a snapshot with
    the same start and end. *)
Theorem save_restore_roundtrip (t : string) (cs : list Node)
    (this this1 : Editor.State) (r : Range) (rest rs : list Range)
    (snap : SerializedSelection) :
  Editor.focusedElement this = Some (Element t cs) ->
  rangeInside (Element t cs) r ->
  Editor.saveSelection dom this (Some (r :: rest)) = (Normal (Some snap), this1) ->
  exists r',
    Editor.restoreSelection dom this1 (Some rs) = Some (true, Some [r']) /\
    rangeInside (Element t cs) r' /\
    exists snap' this2,
      Editor.saveSelection dom this1 (Some [r']) = (Normal (Some snap'), this2) /\
      start snap' = start snap /\
      end_ snap' = end_ snap.
Proof.
  intros Hf _ Hsave. unfold Editor.saveSelection in Hsave. rewrite Hf in Hsave.
  destruct (exportSelection dom (Some (Element t cs)) (Some (r :: rest))) as [s|e] eqn:Hx;
    [|discriminate].
  inversion Hsave; subst s this1. clear Hsave.
  pose proof (export_dom_bounds _ _ _ Hx) as [H0 [Ht _]].
  destruct (restore_export t cs snap rs) as [r' [Hi [snap' [He [Hs [Hin _]]]]]];
    try lia.
  exists r'. unfold Editor.restoreSelection, Editor.saveSelection.
  cbn [Editor.focusedElement Editor.savedSelection].
  split; [exact Hi|]. split.
  - destruct (import_dom (Element t cs) snap (Some rs)) as [w [Hw Hiw]].
    rewrite Hi in Hiw. inversion Hiw; subst r'.
    apply (process_inside _ _ _ Hw).
  - exists snap'. rewrite He. eexists. split; [reflexivity|].
    split; [exact Hs|]. apply Hin. exact Ht.
Qed.

Lemma save_restore_roundtrip_witness :
  Editor.focusedElement (Editor.mkState (Some twoBlocks) None) = Some twoBlocks /\
  rangeInside twoBlocks (mkRange (Ref [] twoBlocks) 1 (Ref [1; 0] (Text "World")) 3) /\
  Editor.saveSelection dom (Editor.mkState (Some twoBlocks) None)
    (Some [mkRange (Ref [] twoBlocks) 1 (Ref [1; 0] (Text "World")) 3]) =
  (Normal (Some (mkSerializedSelection 6 9 (Some (Ref [] twoBlocks))
                   (Some (Ref [1; 0] (Text "World"))) false)),
   Editor.mkState (Some twoBlocks)
     (Some (mkSerializedSelection 6 9 (Some (Ref [] twoBlocks))
              (Some (Ref [1; 0] (Text "World"))) false))) /\
  exists r',
    Editor.restoreSelection dom
      (Editor.mkState (Some twoBlocks)
         (Some (mkSerializedSelection 6 9 (Some (Ref [] twoBlocks))
                  (Some (Ref [1; 0] (Text "World"))) false)))
      (Some []) =
    Some (true, Some [r']) /\
    rangeInside twoBlocks r' /\
    exists snap' this2,
      Editor.saveSelection dom
        (Editor.mkState (Some twoBlocks)
           (Some (mkSerializedSelection 6 9 (Some (Ref [] twoBlocks))
                    (Some (Ref [1; 0] (Text "World"))) false))) (Some [r']) =
      (Normal (Some snap'), this2) /\
      start snap' = 6%Z /\ end_ snap' = 9%Z.
Proof.
  split; [reflexivity|]. split; [split; reflexivity|]. split; [reflexivity|].
  apply (save_restore_roundtrip "div"
           [Element "p" [Text "Hello "]; Element "b" [Text "World"]]
           (Editor.mkState (Some twoBlocks) None)
           (Editor.mkState (Some twoBlocks)
              (Some (mkSerializedSelection 6 9 (Some (Ref [] twoBlocks))
                       (Some (Ref [1; 0] (Text "World"))) false)))
           (mkRange (Ref [] twoBlocks) 1 (Ref [1; 0] (Text "World")) 3) [] []
           (mkSerializedSelection 6 9 (Some (Ref [] twoBlocks))
              (Some (Ref [1; 0] (Text "World"))) false)).
  - reflexivity.
  - split; reflexivity.
  - reflexivity.
Defined.

(** X11: on the standard platform [restoreSelection] fails only for want
    of a focused element or of a saved snapshot, and a failed call leaves
    the live selection as it was. *)
Theorem restoreSelection_failure (this : Editor.State) (live live' : LiveSelection) :
  Editor.restoreSelection dom this live = Some (false, live') ->
  live' = live /\
  (Editor.focusedElement this = None \/ Editor.savedSelection this = None).
Proof.
  unfold Editor.restoreSelection.
  destruct (Editor.focusedElement this) as [element|];
    destruct (Editor.savedSelection this) as [saved|]; intros H;
    try (inversion H; auto; fail).
  destruct (import_dom element saved live) as [w [_ Hi]].
  rewrite Hi in H. discriminate.
Qed.

Lemma restoreSelection_failure_witness :
  Editor.restoreSelection dom (Editor.mkState (Some twoBlocks) None)
    (Some [mkRange (Ref [] twoBlocks) 0 (Ref [] twoBlocks) 1]) =
  Some (false, Some [mkRange (Ref [] twoBlocks) 0 (Ref [] twoBlocks) 1]) /\
  Some [mkRange (Ref [] twoBlocks) 0 (Ref [] twoBlocks) 1] =
  Some [mkRange (Ref [] twoBlocks) 0 (Ref [] twoBlocks) 1] /\
  (Editor.focusedElement (Editor.mkState (Some twoBlocks) None) = None \/
   Editor.savedSelection (Editor.mkState (Some twoBlocks) None) = None).
Proof.
  split; [reflexivity|].
  apply (restoreSelection_failure (Editor.mkState (Some twoBlocks) None)
           (Some [mkRange (Ref [] twoBlocks) 0 (Ref [] twoBlocks) 1])).
  reflexivity.
Defined.

(** * The block parent of the selection *)

Module BlockFacts.

Import BlockParent.

Lemma nodeAt_snoc : forall p top i nd,
  nodeAt top (p ++ [i]) = Some nd ->
  exists t cs, nodeAt top p = Some (Element t cs) /\ nth_error cs i = Some nd.
Proof.
  induction p as [|j p IH]; intros top i nd H; simpl in *.
  - destruct top as [t cs|s|s]; try discriminate.
    destruct (nth_error cs i) as [c|] eqn:E; [|discriminate].
    inversion H; subst. exists t, cs. auto.
  - destruct top as [t cs|s|s]; try discriminate.
    destruct (nth_error cs j) as [c|]; [|discriminate].
    apply IH. exact H.
Qed.

Lemma nodeAt_prefix : forall c top r nd,
  nodeAt top (c ++ r) = Some nd -> exists e, nodeAt top c = Some e.
Proof.
  induction c as [|j c IH]; intros top r nd H; simpl in *.
  - eauto.
  - destruct top as [t cs|s|s]; try discriminate.
    destruct (nth_error cs j) as [x|]; [|discriminate].
    eapply IH. exact H.
Qed.

Lemma isPrefix_refl p : isPrefix p p.
Proof. exists []. rewrite app_nil_r. reflexivity. Qed.

Lemma isPrefix_nil_r c : isPrefix c [] -> c = [].
Proof. intros [r H]. destruct c; [reflexivity|discriminate]. Qed.

Lemma isPrefix_snoc c p i : isPrefix c (p ++ [i]) -> c = p ++ [i] \/ isPrefix c p.
Proof.
  intros [r H]. destruct r as [|x r] using rev_ind.
  - left. rewrite app_nil_r in H. auto.
  - right. rewrite app_assoc in H. apply app_inj_tail in H. destruct H as [H _].
    exists r. exact H.
Qed.

Lemma isPrefix_snoc_r c p i : isPrefix c p -> isPrefix c (p ++ [i]).
Proof. intros [r H]. exists (r ++ [i]). rewrite H, app_assoc. reflexivity. Qed.

Lemma commonPrefix_l : forall p q, isPrefix (commonPrefix p q) p.
Proof.
  induction p as [|i p IH]; intros [|j q]; simpl; try (exists []; reflexivity).
  - exists (i :: p). reflexivity.
  - destruct (Nat.eqb i j); [|exists (i :: p); reflexivity].
    destruct (IH q) as [r Hr]. exists r. simpl. rewrite <- Hr. reflexivity.
Qed.

Lemma commonPrefix_r : forall p q, isPrefix (commonPrefix p q) q.
Proof.
  induction p as [|i p IH]; intros [|j q]; simpl; try (exists []; reflexivity).
  - exists (j :: q). reflexivity.
  - destruct (Nat.eqb_spec i j) as [->|]; [|exists (j :: q); reflexivity].
    destruct (IH q) as [r Hr]. exists r. simpl. rewrite <- Hr. reflexivity.
Qed.

Lemma commonPrefix_greatest : forall c p q,
  isPrefix c p -> isPrefix c q -> isPrefix c (commonPrefix p q).
Proof.
  induction c as [|i c IH]; intros p q [r1 H1] [r2 H2].
  - exists (commonPrefix p q). reflexivity.
  - subst p q. simpl. rewrite Nat.eqb_refl.
    destruct (IH (c ++ r1) (c ++ r2)) as [r Hr]; [exists r1; reflexivity|exists r2; reflexivity|].
    exists r. simpl. rewrite <- Hr. reflexivity.
Qed.

Lemma isPrefix_trans a b c : isPrefix a b -> isPrefix b c -> isPrefix a c.
Proof. intros [r1 H1] [r2 H2]. exists (r1 ++ r2). rewrite H2, H1, app_assoc. reflexivity. Qed.

Lemma parentElement_snoc top p i nd par :
  nodeAt top p = Some par ->
  parentElement top (Ref (p ++ [i]) nd) = Some (Ref p par).
Proof.
  intros H. unfold parentElement.
  destruct (p ++ [i]) as [|j l] eqn:E; [destruct p; discriminate|].
  rewrite <- E, removelast_last, H. reflexivity.
Qed.

Lemma isBlockContainer_path p q nd :
  isBlockContainer (Ref p nd) = isBlockContainer (Ref q nd).
Proof. reflexivity. Qed.

Lemma isBlockContainer_Element p t cs :
  isBlockContainer (Ref p (Element t cs)) =
  Returns (includes blockContainerElementNames (toLowerCase t)).
Proof. reflexivity. Qed.

Lemma loop_from_element (top : Node) :
  forall p t cs fuel,
    nodeAt top p = Some (Element t cs) ->
    List.length p < fuel ->
    exists res,
      blockParentLoop fuel top (Some (Ref p (Element t cs))) = Some (Returns res) /\
      nearestBlock top p res.
Proof.
  induction p as [|i p IH] using rev_ind; intros t cs fuel Hn Hf.
  - destruct fuel as [|fuel]; [lia|]. cbn [blockParentLoop].
    rewrite isBlockContainer_Element.
    destruct (includes blockContainerElementNames (toLowerCase t)) eqn:Hb.
    + eexists. split; [reflexivity|]. cbn [nearestBlock]. repeat split.
      * apply isPrefix_refl.
      * exact Hn.
      * rewrite isBlockContainer_Element, Hb. reflexivity.
      * intros c' t' cs' _ Hne Hp. apply isPrefix_nil_r in Hp. congruence.
    + cbn [parentElement]. eexists. split; [reflexivity|]. cbn [nearestBlock].
      intros c' t' cs' Hp Hc. apply isPrefix_nil_r in Hp. subst c'.
      rewrite Hn in Hc. inversion Hc; subst.
      rewrite isBlockContainer_Element, Hb. reflexivity.
  - destruct fuel as [|fuel]; [lia|]. rewrite length_app in Hf. simpl in Hf.
    destruct (nodeAt_snoc _ _ _ _ Hn) as [pt [pcs [Hpar _]]].
    cbn [blockParentLoop]. rewrite isBlockContainer_Element.
    destruct (includes blockContainerElementNames (toLowerCase t)) eqn:Hb.
    + eexists. split; [reflexivity|]. cbn [nearestBlock]. repeat split.
      * apply isPrefix_refl.
      * exact Hn.
      * rewrite isBlockContainer_Element, Hb. reflexivity.
      * intros c' t' cs' [r1 H1] Hne [r2 H2]. exfalso. apply Hne.
        rewrite H1 in H2. rewrite <- app_assoc in H2.
        rewrite <- (app_nil_r (p ++ [i])) in H2 at 1.
        apply app_inv_head in H2. symmetry in H2. apply app_eq_nil in H2.
        destruct H2 as [-> _]. rewrite app_nil_r in H1. exact H1.
    + rewrite (parentElement_snoc top p i (Element t cs) (Element pt pcs) Hpar).
      destruct (IH pt pcs fuel Hpar) as [res [Hres Hnear]]; [lia|].
      exists res. split; [exact Hres|].
      destruct res as [[|c e]|]; cbn [nearestBlock] in *.
      * exact Hnear.
      * destruct Hnear as [H1 [H2 [H3 H4]]]. repeat split; auto.
        -- apply isPrefix_snoc_r. exact H1.
        -- intros c' t' cs' Hcc Hne Hp Hc.
           apply isPrefix_snoc in Hp. destruct Hp as [->|Hp].
           ++ rewrite Hn in Hc. inversion Hc; subst.
              rewrite isBlockContainer_Element, Hb. reflexivity.
           ++ apply H4; auto.
      * intros c' t' cs' Hp Hc.
        apply isPrefix_snoc in Hp. destruct Hp as [->|Hp].
        -- rewrite Hn in Hc. inversion Hc; subst.
           rewrite isBlockContainer_Element, Hb. reflexivity.
        -- apply Hnear; auto.
Qed.

(** The outcome of [getSelectionBlockParent] for a range of the tree, by
    the kind of node that contains both boundary points. *)
Lemma blockParent_cases (top : Node) (r : Range) (rest : list Range)
    (p1 p2 : Path) (n1 n2 : Node) :
  DOM.startContainer r = Ref p1 n1 ->
  DOM.endContainer r = Ref p2 n2 ->
  nodeAt top p1 = Some n1 ->
  nodeAt top p2 = Some n2 ->
  exists res,
    getSelectionBlockParent top (Some (r :: rest)) = Some res /\
    match res with
    | TypeError => exists d, nodeAt top (commonPrefix p1 p2) = Some (Comment d)
    | Returns found =>
        (forall d, nodeAt top (commonPrefix p1 p2) <> Some (Comment d)) /\
        nearestBlock top (commonPrefix p1 p2) found
    end.
Proof.
  intros Hs He H1 H2.
  unfold getSelectionBlockParent, getSelectionParent, commonAncestorContainer.
  rewrite Hs, He. unfold refAt.
  destruct (commonPrefix_l p1 p2) as [r1 Hr1].
  assert (Hcp : exists a, nodeAt top (commonPrefix p1 p2) = Some a).
  { rewrite Hr1 in H1. eapply nodeAt_prefix. exact H1. }
  destruct Hcp as [a Ha]. rewrite Ha. cbn [depth].
  destruct a as [t cs|s|d].
  - cbn [nodeType]. change (ELEMENT_NODE =? TEXT_NODE)%Z with false. cbn iota.
    destruct (loop_from_element top (commonPrefix p1 p2) t cs
                (S (List.length (commonPrefix p1 p2))) Ha) as [res [Hres Hnear]]; [lia|].
    exists (Returns res). split; [exact Hres|]. split; [congruence|exact Hnear].
  - cbn [nodeType]. change (TEXT_NODE =? TEXT_NODE)%Z with true. cbn iota.
    destruct (commonPrefix p1 p2) as [|x l] eqn:Ecp using rev_ind.
    + exists (Returns None). split; [reflexivity|]. split; [congruence|].
      cbn [nearestBlock]. intros c' t' cs' Hp Hc. apply isPrefix_nil_r in Hp. subst c'. congruence.
    + clear IHl.
      destruct (nodeAt_snoc _ _ _ _ Ha) as [pt [pcs [Hpar _]]].
      rewrite (parentElement_snoc top l x (Text s) (Element pt pcs) Hpar).
      destruct (loop_from_element top l pt pcs (S (List.length (l ++ [x]))) Hpar)
        as [res [Hres Hnear]]; [rewrite length_app; simpl; lia|].
      exists (Returns res). split; [exact Hres|]. split; [congruence|].
      destruct res as [[|c e]|]; cbn [nearestBlock] in *.
      * exact Hnear.
      * destruct Hnear as [G1 [G2 [G3 G4]]]. repeat split; auto.
        -- apply isPrefix_snoc_r. exact G1.
        -- intros c' t' cs' Hcc Hne Hp Hc.
           apply isPrefix_snoc in Hp. destruct Hp as [->|Hp]; [congruence|].
           apply G4; auto.
      * intros c' t' cs' Hp Hc.
        apply isPrefix_snoc in Hp. destruct Hp as [->|Hp]; [congruence|].
        apply Hnear; auto.
  - cbn [nodeType]. change (COMMENT_NODE =? TEXT_NODE)%Z with false. cbn iota.
    exists TypeError. split; [reflexivity|]. exists d. reflexivity.
Qed.

End BlockFacts.

Import BlockParent BlockFacts.

(** X12: for a selection whose two boundary points are in the tree, what
    [getSelectionBlockParent] returns is the nearest block container that
    contains the whole selection: an element on the way from the common
    ancestor to the top whose tag is a block tag, with no block container
    among the elements below it on that way; it returns [null] only when
    no element that contains the whole selection is a block container. *)
Theorem blockParent_nearest (top : Node) (r : Range) (rest : list Range)
    (p1 p2 : Path) (n1 n2 : Node) (found : option NodeRef) :
  DOM.startContainer r = Ref p1 n1 ->
  DOM.endContainer r = Ref p2 n2 ->
  nodeAt top p1 = Some n1 ->
  nodeAt top p2 = Some n2 ->
  getSelectionBlockParent top (Some (r :: rest)) = Some (Returns found) ->
  match found with
  | Some (Ref c e) =>
      isPrefix c p1 /\ isPrefix c p2 /\
      nodeAt top c = Some e /\
      isBlockContainer (Ref c e) = Returns true /\
      forall c' t' cs',
        isPrefix c c' -> c' <> c -> isPrefix c' p1 -> isPrefix c' p2 ->
        nodeAt top c' = Some (Element t' cs') ->
        isBlockContainer (Ref c' (Element t' cs')) = Returns false
  | Some DocumentNode => False
  | None =>
      forall c' t' cs',
        isPrefix c' p1 -> isPrefix c' p2 ->
        nodeAt top c' = Some (Element t' cs') ->
        isBlockContainer (Ref c' (Element t' cs')) = Returns false
  end.
Proof.
  intros Hs He H1 H2 Hres.
  destruct (blockParent_cases top r rest p1 p2 n1 n2 Hs He H1 H2) as [res [Hr Hcase]].
  rewrite Hres in Hr. inversion Hr; subst res. destruct Hcase as [_ Hnear].
  pose proof (commonPrefix_l p1 p2) as Hl.
  pose proof (commonPrefix_r p1 p2) as Hrr.
  destruct found as [[|c e]|]; cbn [nearestBlock] in Hnear.
  - exact Hnear.
  - destruct Hnear as [G1 [G2 [G3 G4]]].
    split; [eapply isPrefix_trans; eassumption|].
    split; [eapply isPrefix_trans; eassumption|].
    split; [exact G2|]. split; [exact G3|].
    intros c' t' cs' Hcc Hne Hp1 Hp2 Hc.
    apply G4; auto. apply commonPrefix_greatest; assumption.
  - intros c' t' cs' Hp1 Hp2 Hc.
    apply Hnear; auto. apply commonPrefix_greatest; assumption.
Qed.

Lemma blockParent_nearest_witness :
  nodeAt nested [0; 0] = Some (Text "Hello ") /\
  nodeAt nested [0; 1; 0] = Some (Text "World") /\
  getSelectionBlockParent nested
    (Some [mkRange (Ref [0; 0] (Text "Hello ")) 2 (Ref [0; 1; 0] (Text "World")) 3]) =
  Some (Returns (Some (Ref [0]
    (Element "P" [Text "Hello "; Element "B" [Text "World"]; Comment "x"])))) /\
  isPrefix [0] [0; 0] /\ isPrefix [0] [0; 1; 0] /\
  isBlockContainer
    (Ref [0] (Element "P" [Text "Hello "; Element "B" [Text "World"]; Comment "x"])) =
  Returns true.
Proof.
  split; [reflexivity|]. split; [reflexivity|]. split; [reflexivity|].
  pose proof (blockParent_nearest nested
    (mkRange (Ref [0; 0] (Text "Hello ")) 2 (Ref [0; 1; 0] (Text "World")) 3) []
    [0; 0] [0; 1; 0] (Text "Hello ") (Text "World")
    (Some (Ref [0] (Element "P" [Text "Hello "; Element "B" [Text "World"]; Comment "x"])))
    eq_refl eq_refl eq_refl eq_refl eq_refl) as H.
  cbv beta iota in H. destruct H as [G1 [G2 [_ [G3 _]]]]. auto.
Defined.

(** X13: for a selection whose two boundary points are in the tree,
    [getSelectionBlockParent] ends, and it throws a TypeError exactly when
    the node that contains both boundary points is a comment, whose
    undefined tag name [isBlockContainer] then reads. *)
Theorem blockParent_throws (top : Node) (r : Range) (rest : list Range)
    (p1 p2 : Path) (n1 n2 : Node) :
  DOM.startContainer r = Ref p1 n1 ->
  DOM.endContainer r = Ref p2 n2 ->
  nodeAt top p1 = Some n1 ->
  nodeAt top p2 = Some n2 ->
  (exists res, getSelectionBlockParent top (Some (r :: rest)) = Some res) /\
  (getSelectionBlockParent top (Some (r :: rest)) = Some TypeError <->
   exists d, nodeAt top (commonPrefix p1 p2) = Some (Comment d)).
Proof.
  intros Hs He H1 H2.
  destruct (blockParent_cases top r rest p1 p2 n1 n2 Hs He H1 H2) as [res [Hr Hcase]].
  split; [exists res; exact Hr|]. rewrite Hr. split.
  - intros E. inversion E; subst res. exact Hcase.
  - intros [d Hd]. destruct res as [found|]; [|reflexivity].
    destruct Hcase as [Hno _]. exfalso. apply (Hno d Hd).
Qed.

Lemma blockParent_throws_witness :
  nodeAt nested [0; 2] = Some (Comment "x") /\
  getSelectionBlockParent nested
    (Some [mkRange (Ref [0; 2] (Comment "x")) 0 (Ref [0; 2] (Comment "x")) 1]) =
  Some TypeError.
Proof.
  split; [reflexivity|].
  destruct (blockParent_throws nested
              (mkRange (Ref [0; 2] (Comment "x")) 0 (Ref [0; 2] (Comment "x")) 1) []
              [0; 2] [0; 2] (Comment "x") (Comment "x")
              eq_refl eq_refl eq_refl eq_refl) as [_ [_ H]].
  apply H. exists "x"%string. reflexivity.
Defined.
